(** * A tamper-evident, self-healing block log: transport layer and verifier core

    The development follows [src/server/app.ts] (the three HTTP handlers and
    the process-wide [blockchain] and [information] variables) and
    [src/client/src/App.tsx] (the [Status] enumeration, its decoder and the
    three requests of the page).
    The verifier itself ([./lib], a precompiled artifact) is not part of the
    sources: the handlers are modelled as programs that call it and continue
    with whatever it replies, and the core operations [createBlock] and
    [inspect] are modelled from the specification. *)

From stdpp Require Import base decidable option strings numbers list.

Local Open Scope string_scope.
Local Open Scope list_scope.

(** ** Status (src/client/src/App.tsx, lines 9-13) *)

Inductive Status : Type :=
  | Recovered
  | Valid
  | Tampered.

#[global] Instance Status_eq_dec : EqDecision Status.
Proof. solve_decision. Defined.

(** The numeric value of each enumeration member, which is what travels in
    the JSON body. *)
Definition Status_ordinal (s : Status) : Z :=
  match s with
  | Recovered => 0
  | Valid => 1
  | Tampered => 2
  end.

(** The reverse mapping of the numeric enumeration. *)
Definition Status_of_ordinal (n : Z) : option Status :=
  if decide (n = 0%Z) then Some Recovered
  else if decide (n = 1%Z) then Some Valid
  else if decide (n = 2%Z) then Some Tampered
  else None.

(** [getStatusColor] of the client: a [switch] over the number received. *)
Definition getStatusColor (status : Z) : string :=
  if decide (status = Status_ordinal Recovered) then "bg-green-100 border-green-500"
  else if decide (status = Status_ordinal Valid) then "bg-blue-100 border-blue-500"
  else if decide (status = Status_ordinal Tampered) then "bg-red-100 border-red-500"
  else "bg-gray-100 border-gray-500".

(** [SECRET_KEY] (src/server/app.ts, line 13). *)
Definition SECRET_KEY : string := "some-super-seekrit-key".

(** [occurs key s]: the string [s] contains [key]; and a test for it. *)
Definition occurs (key s : string) : Prop :=
  ∃ before after, s = String.append before (String.append key after).

Fixpoint prefixb (p s : string) : bool :=
  match p with
  | EmptyString => true
  | String a p' =>
      match s with
      | String b s' => if decide (a = b) then prefixb p' s' else false
      | EmptyString => false
      end
  end.

Fixpoint occursb (key s : string) : bool :=
  prefixb key s
  || match s with
     | String _ s' => occursb key s'
     | EmptyString => false
     end.

(** Results of a call that may throw; [Thrown] carries [error.toString()]. *)
Inductive Result (A : Type) : Type :=
  | Returned (a : A)
  | Thrown (error : string).
Arguments Returned {A} a.
Arguments Thrown {A} error.

(** Modelled from the spec: the two error kinds of the verifier core
    (section 7), absent from the sources with the rest of [./lib]. *)
Inductive VerifierError : Type :=
  | InvalidInputError
  | MalformedChainError.

Definition VerifierError_toString (e : VerifierError) : string :=
  match e with
  | InvalidInputError => "InvalidInputError"
  | MalformedChainError => "MalformedChainError"
  end.

(** ** Primitives

    Digests and authentication codes are left abstract: the exact primitives,
    the sentinel previous-hash of the genesis block and the size bound on
    [data] are configuration choices of the verifier. *)
Class Primitives : Type := {
  Hash : Type;
  Sig : Type;
  Hash_eq_dec :: EqDecision Hash;
  Sig_eq_dec :: EqDecision Sig;
  Digest : nat → Z → string → Hash → Hash;
  KeyedMAC : string → Hash → Sig;
  sentinel : Hash;
  max_data_size : nat
}.

Section Blockchain.

Context {primitives : Primitives}.

(** ** Data model *)

(** Modelled from the spec: the [Block] type of [./lib]; the handlers only
    touch its [data] field, the other fields are those of section 3. *)
Record Block : Type := mkBlock {
  index : nat;
  timestamp : Z;
  data : string;
  previousHash : Hash;
  hash : Hash;
  signature : Sig
}.

#[global] Instance Block_eq_dec : EqDecision Block.
Proof. solve_decision. Defined.

(** Modelled from the spec: one entry of what [verifier.information]
    returns, a block of [./lib] with its status (section 4.2); the handler
    reads [blockInfo.block] and [blockInfo.status]. *)
Record BlockInfo : Type := mkBlockInfo {
  block : Block;
  status : Status
}.

#[global] Instance BlockInfo_eq_dec : EqDecision BlockInfo.
Proof. solve_decision. Defined.

(** [tamperedBlock.data = newData]: the one field assignment of the
    transport layer. *)
Definition set_data (newData : string) (b : Block) : Block :=
  {| index := index b; timestamp := timestamp b; data := newData;
     previousHash := previousHash b; hash := hash b;
     signature := signature b |}.

(** ** Verifier core *)

(** Modelled from the spec: the acceptance policy of [createBlock]
    (section 4.1): non-empty and within the configured size bound. *)
Definition acceptable (d : string) : bool :=
  bool_decide (d ≠ "") && bool_decide (String.length d ≤ max_data_size)%nat.

(** Modelled from the spec: [createBlock] of [./lib], section 4.1; the
    current time is an explicit argument. *)
Definition createBlock (secret : string) (priorBlock : option Block)
    (now : Z) (d : string) : VerifierError + Block :=
  if acceptable d then
    let i := match priorBlock with Some p => S (index p) | None => 0 end in
    let prev := match priorBlock with Some p => hash p | None => sentinel end in
    let h := Digest i now d prev in
    inr {| index := i; timestamp := now; data := d; previousHash := prev;
           hash := h; signature := KeyedMAC secret h |}
  else inl InvalidInputError.

(** Modelled from the spec: the self-consistency check of [./lib], step 3a
    of section 4.2. *)
Definition selfIntact (secret : string) (b : Block) : bool :=
  let h' := Digest (index b) (timestamp b) (data b) (previousHash b) in
  bool_decide (h' = hash b) && bool_decide (KeyedMAC secret h' = signature b).

(** Modelled from the spec: the link-consistency check of [./lib], step 3b
    of section 4.2. *)
Definition linkIntact (expectedPreviousHash : Hash) (b : Block) : bool :=
  bool_decide (previousHash b = expectedPreviousHash).

(** Modelled from the spec: the repair of [./lib], step 3c of section 4.2:
    link to [expectedPreviousHash], then recompute [hash] and [signature]
    from the block's current fields. *)
Definition repair (secret : string) (expectedPreviousHash : Hash)
    (b : Block) : Block :=
  let h := Digest (index b) (timestamp b) (data b) expectedPreviousHash in
  {| index := index b; timestamp := timestamp b; data := data b;
     previousHash := expectedPreviousHash; hash := h;
     signature := KeyedMAC secret h |}.

(** Modelled from the spec: the classification of [./lib], step 3c of
    section 4.2. *)
Definition classify (secret : string) (expectedPreviousHash : Hash)
    (b : Block) : BlockInfo :=
  if selfIntact secret b then
    if linkIntact expectedPreviousHash b then mkBlockInfo b Valid
    else mkBlockInfo (repair secret expectedPreviousHash b) Recovered
  else mkBlockInfo (repair secret expectedPreviousHash b) Tampered.

(** Modelled from the spec: the single forward pass of [./lib], steps 2-4
    of section 4.2. *)
Fixpoint walk (secret : string) (expectedPreviousHash : Hash)
    (chain : list Block) : list BlockInfo :=
  match chain with
  | [] => []
  | b :: rest =>
      let bi := classify secret expectedPreviousHash b in
      bi :: walk secret (hash (block bi)) rest
  end.

(** Modelled from the spec: the structural precondition of [./lib]'s
    inspector (section 4.2, failure modes): indices 0, 1, 2, ... *)
Definition contiguous (chain : list Block) : bool :=
  bool_decide (index <$> chain = seq 0 (length chain)).

(** Modelled from the spec: [inspect] of [./lib], section 4.2. *)
Definition inspect (secret : string) (chain : list Block)
    : VerifierError + list BlockInfo :=
  if contiguous chain then inr (walk secret sentinel chain)
  else inl MalformedChainError.

(** ** Transport layer (src/server/app.ts) *)

(** An entry of the [information] variable: [{ data, status }]. *)
Record Info : Type := mkInfo {
  info_data : string;
  info_status : Status
}.

(** The JSON bodies the handlers send. *)
Inductive Body : Type :=
  | Body_block (newBlock : Block)           (* { success: true, block: newBlock } *)
  | Body_information (entries : list Info)  (* { success: true, information } *)
  | Body_success                            (* { success: true } *)
  | Body_error (error : string).            (* { success: false, error } *)

Record Response : Type := mkResponse {
  code : nat;
  body : Body
}.

Definition success (r : Response) : bool :=
  match body r with
  | Body_error _ => false
  | _ => true
  end.

(** [Block] values are JavaScript objects: the arrays hold references, and
    [heap] holds the objects, in allocation order. Every block the verifier
    hands back is a newly wrapped object; the verifier does not write to
    the objects of the transport layer. *)
Record Server : Type := mkServer {
  heap : list Block;
  blockchain : list nat;
  information : list Info
}.

(** [let blockchain: Block[] = []] and [let information = []]. *)
Definition initial : Server :=
  {| heap := []; blockchain := []; information := [] |}.

(** The blocks an array of references denotes. *)
Definition deref (h : list Block) (refs : list nat) : list Block :=
  omap (λ l, h !! l) refs.

(** The chain as the verifier sees it when handed [blockchain]. *)
Definition chain_of (st : Server) : list Block :=
  deref (heap st) (blockchain st).

(** A handler either finishes or calls one of the two methods of the
    verifier and goes on with what the call returned or threw. *)
Inductive Handler (A : Type) : Type :=
  | Done (a : A)
  | verifier_create_block (d : string) (k : Result Block → Handler A)
  | verifier_information (chain : list Block)
      (k : Result (list BlockInfo) → Handler A).
Arguments Done {A} a.
Arguments verifier_create_block {A} d k.
Arguments verifier_information {A} chain k.

(** What [blockInfo => ({ data: blockInfo.block.data, status:
    blockInfo.status })] builds. *)
Definition expose (blockInfo : BlockInfo) : Info :=
  {| info_data := data (block blockInfo); info_status := status blockInfo |}.

(** [app.post('/api/create', ...)], lines 22-32. *)
Definition create_handler (st : Server) (d : string)
    : Handler (Server * Response) :=
  verifier_create_block d (λ r,
    match r with
    | Returned newBlock =>
        Done ({| heap := heap st ++ [newBlock];
                 blockchain := blockchain st ++ [length (heap st)];
                 information := information st |},
              {| code := 200; body := Body_block newBlock |})
    | Thrown error =>
        Done (st, {| code := 400; body := Body_error error |})
    end).

(** [app.get('/api/information', ...)], lines 34-52. *)
Definition information_handler (st : Server) : Handler (Server * Response) :=
  if decide (length (blockchain st) = 0) then
    Done (st, {| code := 404; body := Body_error "No blocks found" |})
  else
    verifier_information (chain_of st) (λ r,
      match r with
      | Returned out =>
          let state := reverse out in
          let information' := expose <$> state in
          Done ({| heap := heap st ++ (block <$> state);
                   blockchain := seq (length (heap st)) (length state);
                   information := information' |},
                {| code := 200; body := Body_information information' |})
      | Thrown error =>
          Done (st, {| code := 400; body := Body_error error |})
      end).

(** [app.post('/api/tamper', ...)], lines 54-69. The index is an integer;
    past the guard it is a position of [blockchain], so the array read
    finds a block. *)
Definition tamper_handler (st : Server) (i : Z) (newData : string)
    : Handler (Server * Response) :=
  if decide ((i < 0)%Z ∨ (i >= Z.of_nat (length (blockchain st)))%Z) then
    Done (st, {| code := 400; body := Body_error "Invalid block index" |})
  else
    match blockchain st !! Z.to_nat i with
    | Some tamperedBlock =>
        Done ({| heap := alter (set_data newData) tamperedBlock (heap st);
                 blockchain := <[Z.to_nat i := tamperedBlock]> (blockchain st);
                 information := information st |},
              {| code := 200; body := Body_success |})
    | None =>
        Done (st, {| code := 500; body := Body_error "TypeError" |})
    end.

Inductive Request : Type :=
  | POST_create (d : string)
  | GET_information
  | POST_tamper (i : Z) (newData : string).

Definition handle (st : Server) (req : Request)
    : Handler (Server * Response) :=
  match req with
  | POST_create d => create_handler st d
  | GET_information => information_handler st
  | POST_tamper i newData => tamper_handler st i newData
  end.

(** The verifier call a handler starts with, if it makes one: the method
    and its arguments. *)
Inductive Invocation : Type :=
  | create_block_args (d : string)
  | information_args (chain : list Block).

Definition invocation {A} (p : Handler A) : option Invocation :=
  match p with
  | Done _ => None
  | verifier_create_block d _ => Some (create_block_args d)
  | verifier_information chain _ => Some (information_args chain)
  end.

(** [outcome p a]: for some replies of the verifier, [p] finishes with [a]. *)
Inductive outcome {A} : Handler A → A → Prop :=
  | outcome_Done a : outcome (Done a) a
  | outcome_create_block d k r a :
      outcome (k r) a → outcome (verifier_create_block d k) a
  | outcome_information chain k r a :
      outcome (k r) a → outcome (verifier_information chain k) a.

(** The states the process can be in, whatever the verifier replies. *)
Inductive reachable : Server → Prop :=
  | reachable_initial : reachable initial
  | reachable_handle st req st' resp :
      reachable st → outcome (handle st req) (st', resp) → reachable st'.

(** Every reference of [blockchain] is to an allocated object, and no two
    positions hold the same object. *)
Definition well_formed (st : Server) : Prop :=
  NoDup (blockchain st) ∧ Forall (λ l, l < length (heap st)) (blockchain st).

(** The tail block of the stored chain, if any. *)
Definition tail (st : Server) : option Block := last (chain_of st).

(** The verifier as an object with private state (the secret given to
    [new Verifier] and whatever else it keeps), and a handler run against
    it. [information_of] is the method [information]. *)
Record Verifier : Type := mkVerifier {
  vstate : Type;
  create_block : vstate → string → Result Block * vstate;
  information_of : vstate → list Block → Result (list BlockInfo) * vstate
}.

Fixpoint run {A} (v : Verifier) (p : Handler A) (s : vstate v)
    : A * vstate v :=
  match p with
  | Done a => (a, s)
  | verifier_create_block d k =>
      let '(r, s') := create_block v s d in run v (k r) s'
  | verifier_information chain k =>
      let '(r, s') := information_of v s chain in run v (k r) s'
  end.

(** The process answering requests one after the other. *)
Fixpoint play (v : Verifier) (s : vstate v) (st : Server)
    (requests : list Request) : list (Request * Response) * Server :=
  match requests with
  | [] => ([], st)
  | req :: rest =>
      let '((st', resp), s') := run v (handle st req) s in
      let '(exchanges, st'') := play v s' st' rest in
      ((req, resp) :: exchanges, st'')
  end.

(** ** Valid chains and tampering, for stating the properties of the core *)

(** The chain invariant of section 3, from position [i] on, with the
    preceding block's hash [expectedPreviousHash]. *)
Fixpoint valid_from (secret : string) (i : nat) (expectedPreviousHash : Hash)
    (chain : list Block) : Prop :=
  match chain with
  | [] => True
  | b :: rest =>
      index b = i ∧ previousHash b = expectedPreviousHash
      ∧ hash b = Digest (index b) (timestamp b) (data b) (previousHash b)
      ∧ signature b = KeyedMAC secret (hash b)
      ∧ valid_from secret (S i) (hash b) rest
  end.

Definition valid_chain (secret : string) (chain : list Block) : Prop :=
  valid_from secret 0 sentinel chain.

(** Minting a chain with the factory: one block per (time, data) pair,
    each linked to the one before. *)
Fixpoint mint_from (secret : string) (priorBlock : option Block)
    (entries : list (Z * string)) : VerifierError + list Block :=
  match entries with
  | [] => inr []
  | (now, d) :: rest =>
      match createBlock secret priorBlock now d with
      | inl e => inl e
      | inr b =>
          match mint_from secret (Some b) rest with
          | inl e => inl e
          | inr bs => inr (b :: bs)
          end
      end
  end.

Definition mint (secret : string) (entries : list (Z * string))
    : VerifierError + list Block :=
  mint_from secret None entries.

(** Mutating the [data] of the block at position [k], nothing else. *)
Definition tamper (k : nat) (newData : string) (chain : list Block)
    : list Block :=
  alter (set_data newData) k chain.

(** Resuming a handler that waits for the verifier with a reply. *)
Definition on_create_block {A} (p : Handler A) (r : Result Block)
    : option (Handler A) :=
  match p with
  | verifier_create_block _ k => Some (k r)
  | _ => None
  end.

Definition on_information {A} (p : Handler A) (r : Result (list BlockInfo))
    : option (Handler A) :=
  match p with
  | verifier_information _ k => Some (k r)
  | _ => None
  end.

(** What the core returns or throws, as the transport layer receives it. *)
Definition thrown_or_returned {A} (r : VerifierError + A) : Result A :=
  match r with
  | inr a => Returned a
  | inl e => Thrown (VerifierError_toString e)
  end.

(** Modelled from the spec: the verifier of [./lib] behind its two
    methods. [create_block(data)] mints with [createBlock], for some prior
    block and at some time (the handler passes neither);
    [information(chain)] is [inspect]. *)
Inductive served (secret : string) {A} : Handler A → A → Prop :=
  | served_Done a : served secret (Done a) a
  | served_create_block d k priorBlock now a :
      served secret
        (k (thrown_or_returned (createBlock secret priorBlock now d))) a →
      served secret (verifier_create_block d k) a
  | served_information chain k a :
      served secret (k (thrown_or_returned (inspect secret chain))) a →
      served secret (verifier_information chain k) a.

(** The exchanges of a process started with [new Verifier(secret)], and
    the state they lead to. *)
Inductive session (secret : string)
    : list (Request * Response) → Server → Prop :=
  | session_start : session secret [] initial
  | session_handle exchanges st req st' resp :
      session secret exchanges st →
      served secret (handle st req) (st', resp) →
      session secret (exchanges ++ [(req, resp)]) st'.

(** A verifier without private state, given by what its methods reply. *)
Definition stateless (create : string → Result Block)
    (inform : list Block → Result (list BlockInfo)) : Verifier :=
  {| vstate := unit;
     create_block := λ _ d, (create d, ());
     information_of := λ _ chain, (inform chain, ()) |}.

(** The error texts of the transport layer and of the core. *)
Definition error_texts : list string :=
  ["No blocks found"; "Invalid block index";
   VerifierError_toString InvalidInputError;
   VerifierError_toString MalformedChainError].

(** What the body of a response is built from, when the verifier behind
    the handlers is the core under [secret]. *)
Definition built_from_core (secret : string) (st : Server) (req : Request)
    (resp : Response) : Prop :=
  match body resp with
  | Body_block newBlock =>
      ∃ priorBlock now d,
        req = POST_create d
        ∧ createBlock secret priorBlock now d = inr newBlock
  | Body_information entries =>
      ∃ out,
        req = GET_information
        ∧ inspect secret (chain_of st) = inr out
        ∧ entries = expose <$> reverse out
  | Body_success => ∃ i newData, req = POST_tamper i newData
  | Body_error error => error ∈ error_texts
  end.

(** ** Where the key could show

    The strings of a body: every string-valued field it carries. A block
    is taken to be sent whole, its two hashes and its signature as the
    texts [Hash_text] and [Sig_text] render them; the numbers ([index],
    [timestamp], the ordinal of a status) and the booleans are not
    strings. *)
Definition leaves (Hash_text : Hash → string) (Sig_text : Sig → string)
    (b : Body) : list string :=
  match b with
  | Body_block newBlock =>
      [data newBlock; Hash_text (previousHash newBlock);
       Hash_text (hash newBlock); Sig_text (signature newBlock)]
  | Body_information entries => info_data <$> entries
  | Body_success => []
  | Body_error error => [error]
  end.

(** A string of a body is accounted for when it is an error text, or came
    in with a request, or is the text of a digest, or the text of a code
    under the secret. *)
Definition accounted (Hash_text : Hash → string) (Sig_text : Sig → string)
    (secret : string) (known : list string) (s : string) : Prop :=
  s ∈ error_texts ∨ s ∈ known
  ∨ (∃ h, s = Hash_text h) ∨ (∃ h, s = Sig_text (KeyedMAC secret h)).

(** The strings a request brings in. *)
Definition supplied (req : Request) : list string :=
  match req with
  | POST_create d => [d]
  | GET_information => []
  | POST_tamper _ newData => [newData]
  end.

Definition supplied_by (exchanges : list (Request * Response)) : list string :=
  concat ((λ x, supplied x.1) <$> exchanges).

(** The seven ways a request is answered when the verifier behind the
    handlers is the core under [secret]. *)
Inductive step (secret : string)
    : Server → Request → Server → Response → Prop :=
  | step_create_rejected st d priorBlock now e :
      createBlock secret priorBlock now d = inl e →
      step secret st (POST_create d) st
        {| code := 400; body := Body_error (VerifierError_toString e) |}
  | step_create st d priorBlock now newBlock :
      createBlock secret priorBlock now d = inr newBlock →
      step secret st (POST_create d)
        {| heap := heap st ++ [newBlock];
           blockchain := blockchain st ++ [length (heap st)];
           information := information st |}
        {| code := 200; body := Body_block newBlock |}
  | step_information_empty st :
      blockchain st = [] →
      step secret st GET_information st
        {| code := 404; body := Body_error "No blocks found" |}
  | step_information_rejected st e :
      blockchain st ≠ [] →
      inspect secret (chain_of st) = inl e →
      step secret st GET_information st
        {| code := 400; body := Body_error (VerifierError_toString e) |}
  | step_information st out :
      blockchain st ≠ [] →
      inspect secret (chain_of st) = inr out →
      step secret st GET_information
        {| heap := heap st ++ (block <$> reverse out);
           blockchain := seq (length (heap st)) (length (reverse out));
           information := expose <$> reverse out |}
        {| code := 200; body := Body_information (expose <$> reverse out) |}
  | step_tamper_invalid st i newData :
      (i < 0)%Z ∨ (i >= Z.of_nat (length (blockchain st)))%Z →
      step secret st (POST_tamper i newData) st
        {| code := 400; body := Body_error "Invalid block index" |}
  | step_tamper st i newData l :
      (0 ≤ i < Z.of_nat (length (blockchain st)))%Z →
      blockchain st !! Z.to_nat i = Some l →
      step secret st (POST_tamper i newData)
        {| heap := alter (set_data newData) l (heap st);
           blockchain := <[Z.to_nat i := l]> (blockchain st);
           information := information st |}
        {| code := 200; body := Body_success |}.

(** ** The handlers, whatever the verifier replies *)

(** Running [p], then [f] on its result. *)
Fixpoint Handler_bind {A B} (p : Handler A) (f : A → Handler B) : Handler B :=
  match p with
  | Done a => f a
  | verifier_create_block d k =>
      verifier_create_block d (λ r, Handler_bind (k r) f)
  | verifier_information chain k =>
      verifier_information chain (λ r, Handler_bind (k r) f)
  end.

(** The seven ways through the three handlers: the state left and the
    response sent, the replies of the verifier being arbitrary. *)
Inductive answers : Server → Request → Server → Response → Prop :=
  | answers_create_thrown st d error :
      answers st (POST_create d) st
        {| code := 400; body := Body_error error |}
  | answers_create st d newBlock :
      answers st (POST_create d)
        {| heap := heap st ++ [newBlock];
           blockchain := blockchain st ++ [length (heap st)];
           information := information st |}
        {| code := 200; body := Body_block newBlock |}
  | answers_information_empty st :
      blockchain st = [] →
      answers st GET_information st
        {| code := 404; body := Body_error "No blocks found" |}
  | answers_information_thrown st error :
      blockchain st ≠ [] →
      answers st GET_information st
        {| code := 400; body := Body_error error |}
  | answers_information st out :
      blockchain st ≠ [] →
      answers st GET_information
        {| heap := heap st ++ (block <$> reverse out);
           blockchain := seq (length (heap st)) (length (reverse out));
           information := expose <$> reverse out |}
        {| code := 200; body := Body_information (expose <$> reverse out) |}
  | answers_tamper_invalid st i newData :
      (i < 0)%Z ∨ (i >= Z.of_nat (length (blockchain st)))%Z →
      answers st (POST_tamper i newData) st
        {| code := 400; body := Body_error "Invalid block index" |}
  | answers_tamper st i newData l :
      (0 ≤ i < Z.of_nat (length (blockchain st)))%Z →
      blockchain st !! Z.to_nat i = Some l →
      answers st (POST_tamper i newData)
        {| heap := alter (set_data newData) l (heap st);
           blockchain := <[Z.to_nat i := l]> (blockchain st);
           information := information st |}
        {| code := 200; body := Body_success |}.

(** ** [POST /api/tamper] on a body whose [index] is not a number

    [req.body.index] is whatever JSON the client sent: a number, [null]
    (what [JSON.stringify] makes of [NaN]), or nothing at all
    ([undefined]). In the guard of line 57, [null] compares as 0 and
    [undefined] as [NaN], for which both comparisons are false; the array
    read [blockchain[index]] with either of them is [undefined], and the
    assignment [tamperedBlock.data = newData] of line 64 then throws a
    [TypeError] that the handler does not catch. The same happens with a
    number that is not an integer and passes the guard. Such a number is
    given by its floor: it is below 0 exactly when its floor is, and at
    least the length exactly when its floor is. *)
Inductive IndexValue : Type :=
  | index_number (i : Z)
  | index_fraction (floor : Z)
  | index_null
  | index_undefined.

(** What becomes of a request: a response sent by the handler, or an
    exception that leaves the handler. *)
Inductive Reply : Type :=
  | Sent (resp : Response)
  | Uncaught (error : string).

Definition tamper_route (st : Server) (index : IndexValue) (newData : string)
    : Handler (Server * Reply) :=
  match index with
  | index_number i =>
      Handler_bind (tamper_handler st i newData)
        (λ '(st', resp), Done (st', Sent resp))
  | index_fraction floor =>
      if decide ((floor < 0)%Z
                 ∨ (floor >= Z.of_nat (length (blockchain st)))%Z) then
        Done (st, Sent {| code := 400;
                          body := Body_error "Invalid block index" |})
      else Done (st, Uncaught "TypeError")
  | index_null =>
      if decide ((0 < 0)%Z ∨ (0 >= Z.of_nat (length (blockchain st)))%Z) then
        Done (st, Sent {| code := 400;
                          body := Body_error "Invalid block index" |})
      else Done (st, Uncaught "TypeError")
  | index_undefined => Done (st, Uncaught "TypeError")
  end.

(** A request as it reaches one of the three handlers: the [data] and the
    [newData] are strings, the [index] is a finite number, [null] or
    absent. *)
Inductive Arrival : Type :=
  | arrival_create (d : string)
  | arrival_information
  | arrival_tamper (index : IndexValue) (newData : string).

(** What becomes of it: the response the handler sends, or the exception
    that leaves it. *)
Definition route (st : Server) (a : Arrival) : Handler (Server * Reply) :=
  match a with
  | arrival_create d =>
      Handler_bind (create_handler st d)
        (λ '(st', resp), Done (st', Sent resp))
  | arrival_information =>
      Handler_bind (information_handler st)
        (λ '(st', resp), Done (st', Sent resp))
  | arrival_tamper index newData => tamper_route st index newData
  end.

(** ** The client (src/client/src/App.tsx) *)

(** What is decided outside this code: [parseInt], the JavaScript
    builtin, [None] standing for a result that is not a finite number
    ([NaN], or an infinity for a numeral too long), which
    [JSON.stringify] writes as [null]; and whether the JSON body of a
    POST is over the size limit of [express.json()] (app.ts, line 11), as
    a function of what the body is made from. Over the limit the parser
    answers 413 with a page that is not JSON and the handler does not
    run. *)
Record Platform : Type := mkPlatform {
  parseInt : string → option Z;
  create_too_large : string → bool;
  tamper_too_large : option Z → string → bool
}.

(** A call of [toast]: the description, and whether the variant is
    ['destructive']. *)
Record Toast : Type := mkToast {
  description : string;
  destructive : bool
}.

(** The state of the [App] component: the four [useState] cells, and the
    toasts shown so far, oldest first. [App_blockchain] is the cell
    [blockchain]; [None] is [undefined]. *)
Record Client : Type := mkClient {
  App_blockchain : option (list Info);
  newBlockData : string;
  tamperIndex : string;
  tamperData : string;
  toasts : list Toast
}.

(** [useState([])] and three times [useState('')]. *)
Definition App_initial : Client :=
  {| App_blockchain := Some []; newBlockData := ""; tamperIndex := "";
     tamperData := ""; toasts := [] |}.

Definition setBlockchain (v : option (list Info)) (c : Client) : Client :=
  {| App_blockchain := v; newBlockData := newBlockData c;
     tamperIndex := tamperIndex c; tamperData := tamperData c;
     toasts := toasts c |}.

Definition setNewBlockData (v : string) (c : Client) : Client :=
  {| App_blockchain := App_blockchain c; newBlockData := v;
     tamperIndex := tamperIndex c; tamperData := tamperData c;
     toasts := toasts c |}.

Definition setTamperIndex (v : string) (c : Client) : Client :=
  {| App_blockchain := App_blockchain c; newBlockData := newBlockData c;
     tamperIndex := v; tamperData := tamperData c;
     toasts := toasts c |}.

Definition setTamperData (v : string) (c : Client) : Client :=
  {| App_blockchain := App_blockchain c; newBlockData := newBlockData c;
     tamperIndex := tamperIndex c; tamperData := v;
     toasts := toasts c |}.

Definition toast (t : Toast) (c : Client) : Client :=
  {| App_blockchain := App_blockchain c; newBlockData := newBlockData c;
     tamperIndex := tamperIndex c; tamperData := tamperData c;
     toasts := toasts c ++ [t] |}.

(** The second half of [fetchInformation], lines 30-39: [data.success]
    is false exactly for a body with an [error]; a successful body without
    an [information] field would store [undefined]. *)
Definition receive_information (data : Response) (c : Client) : Client :=
  match body data with
  | Body_error error =>
      toast {| description :=
                 String.append "Failed to fetch blockchain information: " error;
               destructive := true |} c
  | Body_information entries => setBlockchain (Some entries) c
  | _ => setBlockchain None c
  end.

(** [fetchInformation], lines 27-40, against the server. *)
Definition App_fetchInformation (c : Client) (st : Server)
    : Handler (Client * Server) :=
  Handler_bind (information_handler st)
    (λ '(st', data), Done (receive_information data c, st')).

(** [create], lines 42-61, against the server. When the answer is not
    JSON, [response.json()] rejects and the rest of the function does not
    run. On success [fetchInformation()] is started without being awaited:
    the input is cleared and the toast shown before its response is
    handled. *)
Definition App_create (platform : Platform) (c : Client) (st : Server)
    : Handler (Client * Server) :=
  if create_too_large platform (newBlockData c) then Done (c, st)
  else
    Handler_bind (create_handler st (newBlockData c))
      (λ '(st', result),
         match body result with
         | Body_error error =>
             Done (toast {| description :=
                              String.append "Failed to create block: " error;
                            destructive := true |} c, st')
         | _ =>
             App_fetchInformation
               (toast {| description := "Block created successfully 🎉";
                         destructive := false |}
                  (setNewBlockData "" c)) st'
         end).

(** [tamper], lines 63-83, against the server. A parsed index that is
    not a finite number travels as [null]. When the body is over the
    limit, or the handler throws, the server's answer is not JSON,
    [response.json()] rejects and the rest of the function does not run. *)
Definition App_tamper (platform : Platform) (c : Client) (st : Server)
    : Handler (Client * Server) :=
  let parsed := parseInt platform (tamperIndex c) in
  let index :=
    match parsed with
    | Some i => index_number i
    | None => index_null
    end in
  if tamper_too_large platform parsed (tamperData c) then Done (c, st)
  else
    Handler_bind (tamper_route st index (tamperData c))
      (λ '(st', reply),
         match reply with
         | Uncaught _ => Done (c, st')
         | Sent result =>
             match body result with
             | Body_error error =>
                 Done (toast {| description :=
                                  String.append "Failed to tamper block: "
                                    error;
                                destructive := true |} c, st')
             | _ =>
                 App_fetchInformation
                   (toast {| description :=
                               "Block tampered with successfully";
                             destructive := false |}
                      (setTamperData "" (setTamperIndex "" c))) st'
             end
         end).

(** What the user does: the page loads ([useEffect] calls
    [fetchInformation]), the three inputs change, the two buttons are
    clicked. *)
Inductive Action : Type :=
  | Mount
  | Change_newBlockData (value : string)
  | Change_tamperIndex (value : string)
  | Change_tamperData (value : string)
  | Click_create
  | Click_tamper.

Definition App_act (platform : Platform) (c : Client) (st : Server)
    (a : Action) : Handler (Client * Server) :=
  match a with
  | Mount => App_fetchInformation c st
  | Change_newBlockData value => Done (setNewBlockData value c, st)
  | Change_tamperIndex value => Done (setTamperIndex value c, st)
  | Change_tamperData value => Done (setTamperData value c, st)
  | Click_create => App_create platform c st
  | Click_tamper => App_tamper platform c st
  end.

(** One page, opened on a server that has just started, and used by one
    user, each request being answered before the next action: the pairs of
    client and server states it can be in, whatever the verifier
    replies. *)
(** The page and the server through a run of actions. *)
Fixpoint App_play (platform : Platform) (v : Verifier) (s : vstate v)
    (c : Client) (st : Server) (actions : list Action) : Client * Server :=
  match actions with
  | [] => (c, st)
  | a :: rest =>
      let '((c', st'), s') := run v (App_act platform c st a) s in
      App_play platform v s' c' st' rest
  end.

Inductive App_reachable (platform : Platform)
    : Client → Server → Prop :=
  | App_reachable_initial : App_reachable platform App_initial initial
  | App_reachable_act c st a c' st' :
      App_reachable platform c st →
      outcome (App_act platform c st a) (c', st') →
      App_reachable platform c' st'.

End Blockchain.

Arguments Done {_ A} a.
Arguments verifier_create_block {_ A} d k.
Arguments verifier_information {_ A} chain k.

(** ** An ideal instance of the primitives

    Digests as terms: two digests are equal exactly when they digest the same
    fields. It serves to run the model on concrete chains. *)

Inductive IdealHash : Type :=
  | Zero
  | Hashed (i : nat) (t : Z) (d : string) (prev : IdealHash).

Inductive IdealSig : Type :=
  | Signed (key : string) (h : IdealHash).

#[global] Instance IdealHash_eq_dec : EqDecision IdealHash.
Proof. solve_decision. Defined.

#[global] Instance IdealSig_eq_dec : EqDecision IdealSig.
Proof. solve_decision. Defined.

Definition ideal : Primitives :=
  {| Hash := IdealHash; Sig := IdealSig;
     Digest := Hashed; KeyedMAC := Signed;
     sentinel := Zero; max_data_size := 1024 |}.

(** [collision_free]: equal digests come from equal fields. *)
Definition collision_free (primitives : Primitives) : Prop :=
  ∀ i t d p i' t' d' p',
    Digest i t d p = Digest i' t' d' p' → i = i' ∧ t = t' ∧ d = d' ∧ p = p'.

(** The three-block chain of the concrete scenario, minted at times 10, 20
    and 30 under [SECRET_KEY], and the same chain with block 1 edited. *)
Definition abc_entries : list (Z * string) :=
  [(10%Z, "a"); (20%Z, "b"); (30%Z, "c")].

Definition abc_chain : list (@Block ideal) :=
  match mint SECRET_KEY abc_entries with
  | inr chain => chain
  | inl _ => []
  end.

Definition aBc_chain : list (@Block ideal) := tamper 1 "B" abc_chain.

(** A server holding [abc_chain], as three [POST /api/create] leave it. *)
Definition abc_server : @Server ideal :=
  {| heap := abc_chain; blockchain := [0; 1; 2]; information := [] |}.

(** The verifier used to run the handlers on concrete requests: it answers
    with the core under [SECRET_KEY], minting at time 10 with no prior
    block. *)
Definition genesis_verifier : @Verifier ideal :=
  stateless
    (λ d, thrown_or_returned (createBlock SECRET_KEY None 10 d))
    (λ chain, thrown_or_returned (inspect SECRET_KEY chain)).

(** [abc_server] after one [GET /api/information]: the stored array is in
    newest-first order. *)
Definition cba_server : @Server ideal :=
  {| heap := abc_chain; blockchain := [2; 1; 0]; information := [] |}.

(** What inspection emits for the edited chain. *)
Definition aBc_inspected : list (@BlockInfo ideal) :=
  match inspect SECRET_KEY aBc_chain with
  | inr out => out
  | inl _ => []
  end.

(** The block the factory mints for "a" at time 10 with no prior block. *)
Definition a_block : @Block ideal :=
  @mkBlock ideal 0 10 "a" Zero (Hashed 0 10 "a" Zero)
    (Signed SECRET_KEY (Hashed 0 10 "a" Zero)).

(** A verifier that keeps its tail: it mints each block behind the last
    one it minted, ten ticks after it, starting at time 10; its
    [information] is the core's inspection. *)
Definition chaining_verifier : @Verifier ideal :=
  {| vstate := option (@Block ideal) * Z;
     create_block := λ s d,
       match createBlock SECRET_KEY s.1 s.2 d with
       | inr newBlock => (Returned newBlock, (Some newBlock, (s.2 + 10)%Z))
       | inl e => (Thrown (VerifierError_toString e), s)
       end;
     information_of := λ s chain,
       (thrown_or_returned (inspect SECRET_KEY chain), s) |}.

(** A session against it: three blocks, an edit of the middle one, a
    listing, a block whose data is the key itself, an empty block, an edit
    past the end. *)
Definition scenario_requests : list Request :=
  [POST_create "a"; POST_create "b"; POST_create "c"; POST_tamper 1 "B";
   GET_information; POST_create SECRET_KEY; POST_create "";
   POST_tamper 9 "x"].

Definition scenario_exchanges : list (Request * @Response ideal) :=
  (play chaining_verifier (None, 10%Z) initial scenario_requests).1.

Definition scenario_server : @Server ideal :=
  (play chaining_verifier (None, 10%Z) initial scenario_requests).2.

(** The process asked once, for a block whose data is the key. *)
Definition echo_exchanges : list (Request * @Response ideal) :=
  (play chaining_verifier (None, 10%Z) initial [POST_create SECRET_KEY]).1.

Definition echo_server : @Server ideal :=
  (play chaining_verifier (None, 10%Z) initial [POST_create SECRET_KEY]).2.

(** Texts for the ideal digests and codes, over the digits 0, 1 and 2: the
    depth of the digest in unary. *)
Fixpoint ideal_Hash_text (h : IdealHash) : string :=
  match h with
  | Zero => "0"
  | Hashed _ _ _ prev => String.append "1" (ideal_Hash_text prev)
  end.

Definition ideal_Sig_text (sig : IdealSig) : string :=
  match sig with
  | Signed _ h => String.append "2" (ideal_Hash_text h)
  end.

(** [mentions a s]: the character [a] is in [s]. *)
Fixpoint mentions (a : Ascii.ascii) (s : string) : bool :=
  match s with
  | String b rest => bool_decide (a = b) || mentions a rest
  | EmptyString => false
  end.

(** [parseInt] on a decimal numeral with an optional sign (the characters
    45 and 43), without leading blanks and short enough for its value to
    be finite: the value of the longest prefix of digits (the characters
    48 to 57), [NaN] when there is none. *)
Definition digit_of (a : Ascii.ascii) : option Z :=
  let n := Ascii.nat_of_ascii a in
  if decide ((48 ≤ n)%nat ∧ (n ≤ 57)%nat) then Some (Z.of_nat (n - 48))
  else None.

Fixpoint digits_value (acc : Z) (s : string) : Z :=
  match s with
  | String a rest =>
      match digit_of a with
      | Some d => digits_value (10 * acc + d) rest
      | None => acc
      end
  | EmptyString => acc
  end.

Definition unsigned_value (s : string) : option Z :=
  match s with
  | String a rest =>
      match digit_of a with
      | Some d => Some (digits_value d rest)
      | None => None
      end
  | EmptyString => None
  end.

Definition parseInt_decimal (s : string) : option Z :=
  match s with
  | String a rest =>
      if decide (Ascii.nat_of_ascii a = 45%nat) then
        Z.opp <$> unsigned_value rest
      else if decide (Ascii.nat_of_ascii a = 43%nat) then unsigned_value rest
      else unsigned_value s
  | EmptyString => None
  end.

(** The number of digits of a natural number written in decimal. *)
Fixpoint decimal_width (fuel : nat) (n : Z) : Z :=
  match fuel with
  | O => 1
  | S fuel' =>
      if decide (n < 10)%Z then 1%Z
      else (1 + decimal_width fuel' (n / 10))%Z
  end.

(** A platform for the concrete runs: [parseInt] as above, and the limit
    of 102400 bytes of [express.json()] on the bodies
    [{"data":"..."}] and [{"index":...,"newData":"..."}], measured for
    data of plain characters that JSON does not escape and an index
    written in decimal digits ([null] takes four characters). *)
Definition decimal_platform : Platform :=
  {| parseInt := parseInt_decimal;
     create_too_large := λ d,
       bool_decide (102400 < 11 + Z.of_nat (String.length d))%Z;
     tamper_too_large := λ parsed newData,
       let width :=
         match parsed with
         | Some i =>
             ((if decide (i < 0)%Z then 1 else 0)
              + decimal_width (Z.to_nat (Z.abs i)) (Z.abs i))%Z
         | None => 4%Z
         end in
       bool_decide (102400 < 23 + width + Z.of_nat (String.length newData))%Z
  |}.

(** What the user does in the concrete run: load the page, create "a",
    create "b", edit block 1 to "B". *)
Definition scenario_actions : list Action :=
  [Mount; Change_newBlockData "a"; Click_create;
   Change_newBlockData "b"; Click_create;
   Change_tamperIndex "1"; Change_tamperData "B"; Click_tamper].

Definition scenario_page : Client * @Server ideal :=
  App_play decimal_platform chaining_verifier (None, 10%Z)
    App_initial initial scenario_actions.

(** The page on [abc_server], showing its entries, with "1" and "B" typed
    into the tamper form and "d" into the create form. *)
Definition abc_client : Client :=
  {| App_blockchain := Some []; newBlockData := "d"; tamperIndex := "1";
     tamperData := "B"; toasts := [] |}.

(** The same page with the index field left empty. *)
Definition abc_client_no_index : Client :=
  setTamperIndex "" abc_client.

(** The page just opened with "a" typed into the create form, after a
    click on create against the server that has just started; and
    [abc_client] after a click on tamper against [abc_server]. *)
Definition created_page : Client * @Server ideal :=
  (run chaining_verifier
     (App_create decimal_platform (setNewBlockData "a" App_initial) initial)
     (None, 10%Z)).1.

Definition tampered_page : Client * @Server ideal :=
  (run chaining_verifier
     (App_tamper decimal_platform abc_client abc_server) (None, 10%Z)).1.

(** [abc_chain] as an inspector that finds nothing wrong emits it, and the
    same for the chain in newest-first order. *)
Definition abc_all_valid : list (@BlockInfo ideal) :=
  (λ b, mkBlockInfo b Valid) <$> abc_chain.

Definition cba_all_valid : list (@BlockInfo ideal) :=
  (λ b, mkBlockInfo b Valid) <$> reverse abc_chain.

(** * Properties of the verifier core *)

Section Core.

Context {primitives : Primitives}.
Implicit Types (b : Block) (chain rest : list Block) (secret : string).

Lemma repair_selfIntact secret e b : selfIntact secret (repair secret e b) = true.
Proof.
  unfold selfIntact, repair; simpl.
  rewrite !bool_decide_eq_true_2; done.
Qed.

Lemma classify_index secret e b : index (block (classify secret e b)) = index b.
Proof. unfold classify. by repeat case_match. Qed.

Lemma classify_data secret e b : data (block (classify secret e b)) = data b.
Proof. unfold classify. by repeat case_match. Qed.

Lemma classify_timestamp secret e b :
  timestamp (block (classify secret e b)) = timestamp b.
Proof. unfold classify. by repeat case_match. Qed.

(** Whatever comes in, the emitted block is self-intact and linked to the
    expected previous hash. *)
Lemma classify_sound secret e b :
  selfIntact secret (block (classify secret e b)) = true
  ∧ previousHash (block (classify secret e b)) = e.
Proof.
  unfold classify.
  destruct (selfIntact secret b) eqn:Hself; simpl.
  - destruct (linkIntact e b) eqn:Hlink; simpl.
    + split; [done|]. by apply bool_decide_eq_true_1 in Hlink.
    + split; [apply repair_selfIntact | done].
  - split; [apply repair_selfIntact | done].
Qed.

(** A self-intact, correctly linked block is emitted as it is. *)
Lemma classify_intact secret e b :
  selfIntact secret b = true → previousHash b = e →
  classify secret e b = mkBlockInfo b Valid.
Proof.
  intros Hself Hlink. unfold classify, linkIntact.
  by rewrite Hself, bool_decide_eq_true_2.
Qed.

Lemma walk_length secret e chain : length (walk secret e chain) = length chain.
Proof. revert e. induction chain as [|b rest IH]; intros e; simpl; [done|]. by rewrite IH. Qed.

Lemma walk_index secret e chain :
  index <$> (block <$> walk secret e chain) = index <$> chain.
Proof.
  revert e. induction chain as [|b rest IH]; intros e; simpl; [done|].
  by rewrite classify_index, IH.
Qed.

Lemma walk_data secret e chain :
  data <$> (block <$> walk secret e chain) = data <$> chain.
Proof.
  revert e. induction chain as [|b rest IH]; intros e; simpl; [done|].
  by rewrite classify_data, IH.
Qed.

(** A second pass over what a first pass emitted changes no block and
    finds every block [Valid]. *)
Lemma walk_idempotent secret e chain :
  walk secret e (block <$> walk secret e chain)
  = (λ bi, mkBlockInfo (block bi) Valid) <$> walk secret e chain.
Proof.
  revert e. induction chain as [|b rest IH]; intros e; simpl; [done|].
  destruct (classify_sound secret e b) as [Hself Hlink].
  rewrite (classify_intact _ _ _ Hself Hlink); simpl.
  by rewrite IH.
Qed.

Lemma contiguous_walk secret e chain :
  contiguous (block <$> walk secret e chain) = contiguous chain.
Proof.
  unfold contiguous. by rewrite walk_index, length_fmap, walk_length.
Qed.

(** [inspect] fails on no chain with indices 0, 1, 2, ... *)
Lemma inspect_total secret chain :
  contiguous chain = true → inspect secret chain = inr (walk secret sentinel chain).
Proof. intros Hc. unfold inspect. by rewrite Hc. Qed.

Lemma inspect_inr secret chain out :
  inspect secret chain = inr out →
  contiguous chain = true ∧ out = walk secret sentinel chain.
Proof.
  unfold inspect. destruct (contiguous chain); [|done].
  intros [= <-]. done.
Qed.

(** *** Valid chains *)

Lemma valid_from_selfIntact secret i e b rest :
  valid_from secret i e (b :: rest) → selfIntact secret b = true.
Proof.
  simpl. intros (_ & _ & Hh & Hs & _). unfold selfIntact.
  rewrite <- Hh. rewrite !bool_decide_eq_true_2; done.
Qed.

Lemma valid_from_index secret i e chain :
  valid_from secret i e chain → index <$> chain = seq i (length chain).
Proof.
  revert i e. induction chain as [|b rest IH]; intros i e; simpl; [done|].
  intros (Hi & _ & _ & _ & Hrest). f_equal; [done|].
  by apply (IH _ (hash b)).
Qed.

Lemma valid_chain_contiguous secret chain :
  valid_chain secret chain → contiguous chain = true.
Proof.
  intros Hv. unfold contiguous. apply bool_decide_eq_true_2.
  by apply (valid_from_index secret 0 sentinel).
Qed.

(** An untouched valid chain is emitted as it is, every block [Valid]. *)
Lemma walk_valid secret i e chain :
  valid_from secret i e chain →
  walk secret e chain = (λ b, mkBlockInfo b Valid) <$> chain.
Proof.
  revert i e. induction chain as [|b rest IH]; intros i e Hv; simpl; [done|].
  pose proof (valid_from_selfIntact _ _ _ _ _ Hv) as Hself.
  destruct Hv as (_ & Hlink & _ & _ & Hrest).
  rewrite (classify_intact _ _ _ Hself Hlink); simpl.
  by rewrite (IH _ _ Hrest).
Qed.

(** The factory mints valid chains. *)
Lemma createBlock_inr secret priorBlock now d b :
  createBlock secret priorBlock now d = inr b →
  index b = match priorBlock with Some p => S (index p) | None => 0 end
  ∧ previousHash b = match priorBlock with Some p => hash p | None => sentinel end
  ∧ timestamp b = now ∧ data b = d
  ∧ hash b = Digest (index b) (timestamp b) (data b) (previousHash b)
  ∧ signature b = KeyedMAC secret (hash b).
Proof.
  unfold createBlock. destruct (acceptable d); [|done].
  intros [= <-]; simpl. done.
Qed.

Lemma mint_from_valid secret priorBlock entries chain :
  mint_from secret priorBlock entries = inr chain →
  valid_from secret
    (match priorBlock with Some p => S (index p) | None => 0 end)
    (match priorBlock with Some p => hash p | None => sentinel end) chain.
Proof.
  revert priorBlock chain.
  induction entries as [|[now d] rest IH]; intros priorBlock chain; simpl.
  - intros [= <-]. done.
  - destruct (createBlock secret priorBlock now d) as [|b] eqn:Hb; [done|].
    destruct (mint_from secret (Some b) rest) as [|bs] eqn:Hbs; [done|].
    intros [= <-].
    destruct (createBlock_inr _ _ _ _ _ Hb) as (Hi & Hp & _ & _ & Hh & Hs).
    simpl. rewrite <- Hi. repeat split; try done.
    apply (IH (Some b) bs Hbs).
Qed.

Lemma mint_valid secret entries chain :
  mint secret entries = inr chain → valid_chain secret chain.
Proof. apply (mint_from_valid secret None). Qed.

End Core.

(** * Tampering with one block *)

Section SinglePointTamper.

Context {primitives : Primitives}.
Hypothesis Digest_collision_free : collision_free primitives.
Implicit Types (b : Block) (chain rest : list Block) (secret : string).

(** Editing [data] alone breaks the block's own digest. *)
Lemma set_data_selfIntact secret b newData :
  hash b = Digest (index b) (timestamp b) (data b) (previousHash b) →
  newData ≠ data b →
  selfIntact secret (set_data newData b) = false.
Proof.
  intros Hh Hne. unfold selfIntact; simpl.
  rewrite bool_decide_eq_false_2; [done|].
  rewrite Hh. intros Heq.
  apply Digest_collision_free in Heq as (_ & _ & Hd & _). done.
Qed.

(** Behind a repaired block every valid block has a broken link and is
    relinked, which changes its hash in turn. *)
Lemma walk_relinked secret i e e' chain :
  valid_from secret i e chain → e' ≠ e →
  status <$> walk secret e' chain = replicate (length chain) Recovered.
Proof.
  revert i e e'. induction chain as [|b rest IH]; intros i e e' Hv Hne; [done|].
  pose proof (valid_from_selfIntact _ _ _ _ _ Hv) as Hself.
  destruct Hv as (_ & Hlink & Hh & _ & Hrest).
  cbn [walk length replicate]. unfold classify, linkIntact.
  rewrite Hself, bool_decide_eq_false_2 by congruence.
  cbn [fmap list_fmap block status]. f_equal.
  apply (IH (S i) (hash b)); [done|].
  simpl. rewrite Hh, Hlink. intros Heq.
  apply Digest_collision_free in Heq as (_ & _ & _ & ?). done.
Qed.

Lemma walk_tamper secret i e chain k b newData :
  valid_from secret i e chain → chain !! k = Some b → newData ≠ data b →
  status <$> walk secret e (tamper k newData chain)
  = replicate k Valid ++ Tampered :: replicate (length chain - S k) Recovered
  ∧ walk secret e (tamper k newData chain) !! k
    = Some (mkBlockInfo (repair secret (previousHash b) (set_data newData b))
                        Tampered).
Proof.
  revert i e k. induction chain as [|b0 rest IH]; intros i e k Hv Hk Hne; [done|].
  destruct k as [|k].
  - injection Hk as ->.
    destruct Hv as (_ & Hlink & Hh & _ & Hrest).
    unfold tamper. cbn [alter list_alter walk].
    unfold classify.
    rewrite (set_data_selfIntact secret b newData Hh Hne).
    cbn [fmap list_fmap block status replicate app length lookup list_lookup].
    rewrite Nat.sub_succ, Nat.sub_0_r, Hlink. split; [|done]. f_equal.
    apply (walk_relinked secret (S i) (hash b)); [done|].
    simpl. rewrite Hh, Hlink. intros Heq.
    apply Digest_collision_free in Heq as (_ & _ & ? & _). done.
  - pose proof (valid_from_selfIntact _ _ _ _ _ Hv) as Hself.
    destruct Hv as (_ & Hlink & _ & _ & Hrest).
    unfold tamper. cbn [alter list_alter walk].
    rewrite (classify_intact _ _ _ Hself Hlink).
    cbn [fmap list_fmap block status replicate app length lookup list_lookup].
    destruct (IH (S i) (hash b0) k Hrest Hk Hne) as [IH1 IH2].
    unfold tamper in IH1, IH2. rewrite IH1, Nat.sub_succ.
    split; [done | exact IH2].
Qed.

End SinglePointTamper.

Section Links.

Context {primitives : Primitives}.

(** The emitted chain is linked: every block points at the hash of the
    block emitted before it. *)
Lemma walk_linked secret e (chain : list Block) i bi bj :
  walk secret e chain !! i = Some bi →
  walk secret e chain !! S i = Some bj →
  previousHash (block bj) = hash (block bi).
Proof.
  revert e i. induction chain as [|b rest IH]; intros e i; [done|].
  destruct i as [|i]; cbn [walk lookup list_lookup].
  - intros [= <-]. destruct rest as [|b1 rest]; [done|].
    cbn [walk lookup list_lookup]. intros [= <-].
    apply classify_sound.
  - apply IH.
Qed.

End Links.

(** * Properties of the transport layer *)

Section Transport.

Context {primitives : Primitives}.
Implicit Types (h : list Block) (refs : list nat) (st : Server).

Lemma deref_cons_Some h l refs b :
  h !! l = Some b → deref h (l :: refs) = b :: deref h refs.
Proof. intros Hl. unfold deref. cbn [omap list_omap]. by rewrite Hl. Qed.

Lemma deref_snoc h refs l :
  deref h (refs ++ [l]) = deref h refs ++ option_list (h !! l).
Proof.
  unfold deref. rewrite omap_app. f_equal.
Qed.

(** Objects allocated later do not change what older references denote. *)
Lemma deref_app_old h bs refs :
  Forall (λ l, l < length h) refs → deref (h ++ bs) refs = deref h refs.
Proof.
  unfold deref. induction 1 as [|l refs Hl _ IH]; [done|].
  cbn [omap list_omap]. by rewrite lookup_app_l, IH.
Qed.

(** References to a run of newly allocated objects denote those objects. *)
Lemma deref_fresh h bs :
  deref (h ++ bs) (seq (length h) (length bs)) = bs.
Proof.
  revert h. induction bs as [|b bs IH]; intros h; [done|].
  cbn [length seq].
  assert ((h ++ b :: bs) !! length h = Some b) as Hb
    by (by apply list_lookup_middle).
  rewrite (deref_cons_Some _ _ _ b Hb).
  f_equal. specialize (IH (h ++ [b])).
  rewrite <- (assoc_L (++)), length_app in IH. cbn in IH.
  by rewrite Nat.add_1_r in IH.
Qed.

Lemma deref_length h refs :
  Forall (λ l, l < length h) refs → length (deref h refs) = length refs.
Proof.
  induction 1 as [|l refs Hl _ IH]; [done|].
  destruct (lookup_lt_is_Some_2 h l Hl) as [b Hb].
  rewrite (deref_cons_Some _ _ _ b Hb). simpl. by rewrite IH.
Qed.

Lemma deref_lookup h refs i l :
  Forall (λ l, l < length h) refs → refs !! i = Some l →
  deref h refs !! i = h !! l.
Proof.
  intros Hall. revert i. induction Hall as [|l0 refs Hl _ IH]; intros i; [done|].
  destruct (lookup_lt_is_Some_2 h l0 Hl) as [b Hb].
  rewrite (deref_cons_Some _ _ _ b Hb).
  destruct i as [|i]; simpl; [by intros [= <-] | apply IH].
Qed.

(** Writing to an object no reference points at is not seen. *)
Lemma deref_alter_notin (f : Block → Block) h refs l :
  l ∉ refs → deref (alter f l h) refs = deref h refs.
Proof.
  unfold deref. induction refs as [|l0 refs IH]; intros Hnotin; [done|].
  apply not_elem_of_cons in Hnotin as [Hne Hnotin].
  cbn [omap list_omap]. by rewrite list_lookup_alter_ne, IH.
Qed.

(** Writing to the object at position [i] of an array without repeated
    references is seen at position [i] and nowhere else. *)
Lemma deref_alter (f : Block → Block) h refs i l :
  NoDup refs → Forall (λ l, l < length h) refs → refs !! i = Some l →
  deref (alter f l h) refs = alter f i (deref h refs).
Proof.
  intros Hnodup Hall. revert i.
  induction Hall as [|l0 refs Hl Hall IH]; intros i Hi; [done|].
  apply NoDup_cons in Hnodup as [Hnotin Hnodup].
  destruct (lookup_lt_is_Some_2 h l0 Hl) as [b Hb].
  destruct i as [|i].
  - injection Hi as ->.
    rewrite (deref_cons_Some _ _ _ (f b)), (deref_cons_Some _ _ _ b Hb).
    + by rewrite deref_alter_notin.
    + by rewrite list_lookup_alter_eq, Hb.
  - assert (l ≠ l0) as Hne.
    { intros ->. apply Hnotin. by eapply list_elem_of_lookup_2. }
    rewrite (deref_cons_Some _ _ _ b), (deref_cons_Some _ _ _ b Hb).
    + cbn [alter list_alter]. f_equal. by apply IH.
    + by rewrite list_lookup_alter_ne.
Qed.

(** *** Well-formedness is an invariant of the three handlers *)

Lemma initial_well_formed : well_formed initial.
Proof. split; [apply NoDup_nil_2 | apply Forall_nil_2]. Qed.

Lemma outcome_Done_inv {A} (a a' : A) : outcome (Done a) a' → a' = a.
Proof. by inversion 1. Qed.

Lemma handle_well_formed st req st' resp :
  well_formed st → outcome (handle st req) (st', resp) → well_formed st'.
Proof.
  intros [Hnodup Hall] Hout. destruct req as [d| |i newData]; simpl in Hout.
  - unfold create_handler in Hout. inversion Hout as [|? ? r ? Hk|]; subst.
    destruct r as [newBlock|error];
      apply outcome_Done_inv in Hk; injection Hk as -> _; [|done].
    split; simpl.
    + apply NoDup_app. split_and!; [done| |apply NoDup_singleton].
      intros l Hl ->%list_elem_of_singleton.
      rewrite Forall_forall in Hall. specialize (Hall _ Hl). lia.
    + rewrite length_app. apply Forall_app. split.
      * eapply Forall_impl; [done|]. simpl. lia.
      * apply Forall_singleton. simpl. lia.
  - unfold information_handler in Hout.
    destruct (decide (length (blockchain st) = 0)).
    + apply outcome_Done_inv in Hout. injection Hout as -> _. done.
    + inversion Hout as [| |? ? r ? Hk]; subst.
      destruct r as [out|error];
        apply outcome_Done_inv in Hk; injection Hk as -> _; [|done].
      split; simpl.
      * apply NoDup_seq.
      * rewrite length_app, length_fmap. apply Forall_seq. lia.
  - unfold tamper_handler in Hout.
    destruct (decide _).
    + apply outcome_Done_inv in Hout. injection Hout as -> _. done.
    + destruct (blockchain st !! Z.to_nat i) as [l|] eqn:Hl;
        apply outcome_Done_inv in Hout; injection Hout as -> _; [|done].
      split; simpl.
      * by rewrite list_insert_id.
      * rewrite list_insert_id, length_alter; done.
Qed.

Lemma reachable_well_formed st : reachable st → well_formed st.
Proof.
  induction 1 as [|st req st' resp _ IH Hout].
  - apply initial_well_formed.
  - by eapply handle_well_formed.
Qed.

(** Running against any verifier is one of the outcomes. *)
Lemma run_outcome {A} (v : Verifier) (p : Handler A) (s : vstate v) :
  outcome p (run v p s).1.
Proof.
  revert s. induction p as [a|d k IH|chain k IH]; intros s; simpl.
  - constructor.
  - destruct (create_block v s d) as [r s']. econstructor. apply IH.
  - destruct (information_of v s chain) as [r s']. econstructor. apply IH.
Qed.

End Transport.

(** * The three handlers *)

Section Handlers.

Context {primitives : Primitives}.
Implicit Types (st : Server) (b : Block).

(** The chain after [blockchain.push(newBlock)]. *)
Lemma chain_of_push st newBlock info :
  well_formed st →
  chain_of {| heap := heap st ++ [newBlock];
              blockchain := blockchain st ++ [length (heap st)];
              information := info |}
  = chain_of st ++ [newBlock].
Proof.
  intros [_ Hall]. unfold chain_of; simpl.
  rewrite deref_snoc, (deref_app_old _ _ _ Hall).
  by rewrite list_lookup_middle.
Qed.

(** The chain after [blockchain = state.map(...)]. *)
Lemma chain_of_reassign st (state : list BlockInfo) info :
  chain_of {| heap := heap st ++ (block <$> state);
              blockchain := seq (length (heap st)) (length state);
              information := info |}
  = block <$> state.
Proof.
  unfold chain_of; simpl.
  rewrite <- (length_fmap block state). apply deref_fresh.
Qed.

(** The chain after [tamperedBlock.data = newData]. *)
Lemma chain_of_assign_data st n l newData info :
  well_formed st → blockchain st !! n = Some l →
  chain_of {| heap := alter (set_data newData) l (heap st);
              blockchain := <[n := l]> (blockchain st);
              information := info |}
  = alter (set_data newData) n (chain_of st).
Proof.
  intros [Hnodup Hall] Hl. unfold chain_of; simpl.
  rewrite (list_insert_id _ _ _ Hl). by apply deref_alter.
Qed.

Lemma chain_of_length st :
  well_formed st → length (chain_of st) = length (blockchain st).
Proof. intros [_ Hall]. by apply deref_length. Qed.

Lemma tamper_handler_in_range st i newData :
  (0 ≤ i < Z.of_nat (length (blockchain st)))%Z →
  ∃ l, blockchain st !! Z.to_nat i = Some l
    ∧ tamper_handler st i newData
      = Done ({| heap := alter (set_data newData) l (heap st);
                 blockchain := <[Z.to_nat i := l]> (blockchain st);
                 information := information st |},
              {| code := 200; body := Body_success |}).
Proof.
  intros Hi. unfold tamper_handler.
  destruct (decide _) as [Hout|_]; [lia|].
  destruct (lookup_lt_is_Some_2 (blockchain st) (Z.to_nat i)) as [l Hl]; [lia|].
  exists l. by rewrite Hl.
Qed.

Lemma tamper_handler_out_of_range st i newData :
  (i < 0)%Z ∨ (i >= Z.of_nat (length (blockchain st)))%Z →
  tamper_handler st i newData
  = Done (st, {| code := 400; body := Body_error "Invalid block index" |}).
Proof.
  intros Hi. unfold tamper_handler.
  destruct (decide _) as [_|Hin]; [done|lia].
Qed.

Lemma information_handler_nonempty st :
  blockchain st ≠ [] →
  information_handler st
  = verifier_information (chain_of st) (λ r,
      match r with
      | Returned out =>
          Done ({| heap := heap st ++ (block <$> reverse out);
                   blockchain := seq (length (heap st)) (length (reverse out));
                   information := expose <$> reverse out |},
                {| code := 200;
                   body := Body_information (expose <$> reverse out) |})
      | Thrown error =>
          Done (st, {| code := 400; body := Body_error error |})
      end).
Proof.
  intros Hne. unfold information_handler.
  destruct (decide _) as [Hlen|_]; [|done].
  by apply nil_length_inv in Hlen.
Qed.

Lemma information_handler_empty st :
  blockchain st = [] →
  information_handler st
  = Done (st, {| code := 404; body := Body_error "No blocks found" |}).
Proof. intros Hnil. unfold information_handler. by rewrite Hnil. Qed.

End Handlers.

(** * Handlers answered by the core *)

Section Confidentiality.

Context {primitives : Primitives}.
Implicit Types (st : Server) (c : list Block).

Lemma served_Done_inv secret {A} (a a' : A) :
  served secret (Done a) a' → a' = a.
Proof. by inversion 1. Qed.

Lemma served_create_block_inv secret {A} d k (a : A) :
  served secret (verifier_create_block d k) a →
  ∃ priorBlock now,
    served secret (k (thrown_or_returned (createBlock secret priorBlock now d))) a.
Proof. inversion 1; subst. eauto. Qed.

Lemma served_information_inv secret {A} chain k (a : A) :
  served secret (verifier_information chain k) a →
  served secret (k (thrown_or_returned (inspect secret chain))) a.
Proof. by inversion 1; subst. Qed.

Lemma served_outcome secret {A} (p : Handler A) a :
  served secret p a → outcome p a.
Proof. induction 1; econstructor; eauto. Qed.

Lemma session_reachable secret exchanges st :
  session secret exchanges st → reachable st.
Proof.
  induction 1 as [|? ? ? ? ? _ IH Hserved]; [constructor|].
  econstructor; [exact IH|]. by eapply served_outcome.
Qed.

End Confidentiality.

(** * Specified properties of the handlers *)

Section Claims.

Context {primitives : Primitives}.
Implicit Types (st : Server) (b : Block) (chain : list Block) (secret : string).

(** C1. On a non-empty stored chain, [GET /api/information] calls the
    inspector on the stored chain, reverses what it returns, and uses the
    reversed sequence both for the exposed [information] array and for the
    stored [blockchain]: afterwards the stored chain is the reverse of the
    sequence the inspector emitted. *)
Theorem information_handler_stores_reversed st out :
  blockchain st ≠ [] →
  invocation (information_handler st) = Some (information_args (chain_of st))
  ∧ ∃ st',
      on_information (information_handler st) (Returned out)
      = Some (Done (st', {| code := 200;
                            body := Body_information (expose <$> reverse out) |}))
      ∧ information st' = expose <$> reverse out
      ∧ chain_of st' = reverse (block <$> out).
Proof.
  intros Hne. rewrite (information_handler_nonempty st Hne).
  split; [done|]. eexists. split; [done|]. split; [done|].
  by rewrite chain_of_reassign, fmap_reverse.
Qed.

(** C4 (amended). [POST /api/create] invokes [create_block] with the
    caller-supplied data alone; the block it returns is appended by the
    handler's [push]: the stored chain grows by exactly that block and
    [information] is untouched. When the call throws, nothing is stored. *)
Theorem create_handler_appends st d :
  well_formed st →
  invocation (create_handler st d) = Some (create_block_args d)
  ∧ (∀ newBlock, ∃ st',
       on_create_block (create_handler st d) (Returned newBlock)
       = Some (Done (st', {| code := 200; body := Body_block newBlock |}))
       ∧ chain_of st' = chain_of st ++ [newBlock]
       ∧ information st' = information st)
  ∧ (∀ error, ∃ resp,
       on_create_block (create_handler st d) (Thrown error)
       = Some (Done (st, resp))).
Proof.
  intros Hwf. split; [done|]. split.
  - intros newBlock. eexists. split; [done|]. split; [|done].
    by apply chain_of_push.
  - intros error. by eexists.
Qed.

(** C5 (amended). Inspecting the empty chain returns the empty sequence
    without error. When the stored chain is empty, [GET /api/information]
    does not call the inspector: it answers 404 with [success: false] and
    the error ["No blocks found"], and leaves the state as it is. *)
Theorem empty_chain_not_inspected st secret :
  blockchain st = [] →
  inspect secret [] = inr []
  ∧ invocation (information_handler st) = None
  ∧ information_handler st
    = Done (st, {| code := 404; body := Body_error "No blocks found" |})
  ∧ success {| code := 404; body := Body_error "No blocks found" |} = false.
Proof.
  intros Hnil. rewrite (information_handler_empty st Hnil). done.
Qed.

(** C6. When [verifier.create_block] throws in [POST /api/create], or
    [verifier.information] throws in [GET /api/information], the stored
    chain and the stored [information] array are as before the request and
    the response is 400 with [success: false] and the error's text. *)
Theorem errors_leave_state (v : Verifier) (s s' : vstate v) st d error :
  (create_block v s d = (Thrown error, s') →
   run v (create_handler st d) s
   = ((st, {| code := 400; body := Body_error error |}), s'))
  ∧ (blockchain st ≠ [] →
     information_of v s (chain_of st) = (Thrown error, s') →
     run v (information_handler st) s
     = ((st, {| code := 400; body := Body_error error |}), s'))
  ∧ success {| code := 400; body := Body_error error |} = false.
Proof.
  split_and!; [| |done].
  - intros Hthrown. simpl. by rewrite Hthrown.
  - intros Hne Hthrown. rewrite (information_handler_nonempty st Hne).
    simpl. by rewrite Hthrown.
Qed.

(** C8. For an index in range, [POST /api/tamper] sets the [data] of the
    block at that index to [newData] and leaves every other field of that
    block, every other block of the stored chain, and the [information]
    array as they were. *)
Theorem tamper_changes_data_only st i newData :
  well_formed st →
  (0 ≤ i < Z.of_nat (length (blockchain st)))%Z →
  ∃ st',
    tamper_handler st i newData
    = Done (st', {| code := 200; body := Body_success |})
    ∧ information st' = information st
    ∧ blockchain st' = blockchain st
    ∧ length (chain_of st') = length (chain_of st)
    ∧ (∃ b b',
         chain_of st !! Z.to_nat i = Some b
         ∧ chain_of st' !! Z.to_nat i = Some b'
         ∧ data b' = newData
         ∧ index b' = index b ∧ timestamp b' = timestamp b
         ∧ previousHash b' = previousHash b ∧ hash b' = hash b
         ∧ signature b' = signature b)
    ∧ (∀ j, j ≠ Z.to_nat i → chain_of st' !! j = chain_of st !! j).
Proof.
  intros Hwf Hi.
  destruct (tamper_handler_in_range st i newData Hi) as (l & Hl & Ht).
  eexists. split; [exact Ht|].
  rewrite (chain_of_assign_data st _ _ newData (information st) Hwf Hl).
  split; [done|]. split; [simpl; by rewrite list_insert_id|].
  split; [by rewrite length_alter|]. split.
  - destruct (lookup_lt_is_Some_2 (chain_of st) (Z.to_nat i)) as [b Hb].
    { rewrite (chain_of_length st Hwf). lia. }
    exists b, (set_data newData b). split; [done|].
    split; [by rewrite list_lookup_alter_eq, Hb|done].
  - intros j Hj. by rewrite list_lookup_alter_ne.
Qed.

(** C10. For an integer index below 0 or at least the length of the stored
    chain, [POST /api/tamper] answers 400 with [success: false] and the
    error ["Invalid block index"], and the stored chain is unchanged. *)
Theorem tamper_invalid_index st i newData :
  (i < 0)%Z ∨ (i >= Z.of_nat (length (blockchain st)))%Z →
  ∃ st',
    tamper_handler st i newData
    = Done (st', {| code := 400; body := Body_error "Invalid block index" |})
    ∧ success {| code := 400; body := Body_error "Invalid block index" |} = false
    ∧ st' = st.
Proof.
  intros Hi. exists st. split; [|done].
  by apply tamper_handler_out_of_range.
Qed.

End Claims.

(** * Specified properties of the core *)

Section CoreClaims.

Context {primitives : Primitives}.
Implicit Types (st : Server) (b : Block) (chain : list Block) (secret : string).

(** C3 (amended). Whenever inspecting a chain succeeds, inspecting the
    emitted blocks again succeeds, emits the very same blocks, and finds
    every one of them [Valid]. *)
Theorem inspect_twice secret chain out :
  inspect secret chain = inr out →
  ∃ out',
    inspect secret (block <$> out) = inr out'
    ∧ block <$> out' = block <$> out
    ∧ Forall (λ blockInfo, status blockInfo = Valid) out'.
Proof.
  intros [Hc ->]%inspect_inr.
  exists ((λ bi, mkBlockInfo (block bi) Valid) <$> walk secret sentinel chain).
  split_and!.
  - rewrite inspect_total by (by rewrite contiguous_walk).
    by rewrite walk_idempotent.
  - rewrite <- list_fmap_compose. by apply list_fmap_ext.
  - apply Forall_fmap, Forall_true. done.
Qed.

(** C2. In a valid chain, editing the [data] of block [k] alone makes
    inspection report [Valid] before [k], [Tampered] at [k] and [Recovered]
    after [k]; the block emitted at [k] has its hash and signature
    recomputed over the new data and every emitted block points at the hash
    of the one before it. In particular, for the chain minted from "a", "b",
    "c" with block 1 edited to "B", the statuses are [Valid; Tampered;
    Recovered], block 1 hashes "B" and block 2 points at block 1's new
    hash. Digests are taken to be free of collisions. *)
Theorem single_point_tamper secret :
  collision_free primitives →
  (∀ chain k b newData,
     valid_chain secret chain → chain !! k = Some b → newData ≠ data b →
     ∃ out,
       inspect secret (tamper k newData chain) = inr out
       ∧ status <$> out
         = replicate k Valid ++ Tampered
             :: replicate (length chain - S k) Recovered
       ∧ out !! k
         = Some (mkBlockInfo
                   (repair secret (previousHash b) (set_data newData b))
                   Tampered)
       ∧ (∀ i bi bj, out !! i = Some bi → out !! S i = Some bj →
            previousHash (block bj) = hash (block bi))
       ∧ data <$> (block <$> out) = data <$> tamper k newData chain)
  ∧ (∀ t0 t1 t2 chain,
       mint secret [(t0, "a"); (t1, "b"); (t2, "c")] = inr chain →
       ∃ b0 b1 b2,
         inspect secret (tamper 1 "B" chain)
         = inr [mkBlockInfo b0 Valid; mkBlockInfo b1 Tampered;
                mkBlockInfo b2 Recovered]
         ∧ data <$> [b0; b1; b2] = ["a"; "B"; "c"]
         ∧ hash b1 = Digest 1 t1 "B" (hash b0)
         ∧ signature b1 = KeyedMAC secret (hash b1)
         ∧ previousHash b2 = hash b1).
Proof.
  intros Hfree.
  assert (∀ chain k b newData,
     valid_chain secret chain → chain !! k = Some b → newData ≠ data b →
     ∃ out,
       inspect secret (tamper k newData chain) = inr out
       ∧ status <$> out
         = replicate k Valid ++ Tampered
             :: replicate (length chain - S k) Recovered
       ∧ out !! k
         = Some (mkBlockInfo
                   (repair secret (previousHash b) (set_data newData b))
                   Tampered)
       ∧ (∀ i bi bj, out !! i = Some bi → out !! S i = Some bj →
            previousHash (block bj) = hash (block bi))
       ∧ data <$> (block <$> out) = data <$> tamper k newData chain)
    as Hgeneral.
  { intros chain k b newData Hvalid Hk Hne.
    exists (walk secret sentinel (tamper k newData chain)).
    destruct (walk_tamper Hfree secret 0 sentinel chain k b newData Hvalid Hk Hne)
      as [Hstatus Hat].
    split_and!; [|done|done| |].
    - apply inspect_total. unfold contiguous, tamper.
      apply bool_decide_eq_true_2.
      rewrite length_alter, <- (valid_from_index secret 0 sentinel chain Hvalid).
      apply list_eq. intros j. rewrite !list_lookup_fmap.
      destruct (decide (k = j)) as [<-|Hj].
      + rewrite list_lookup_alter_eq, Hk. done.
      + by rewrite list_lookup_alter_ne.
    - intros i bi bj. apply walk_linked.
    - apply walk_data. }
  split; [exact Hgeneral|].
  intros t0 t1 t2 chain Hmint.
  pose proof (mint_valid _ _ _ Hmint) as Hvalid.
  unfold mint in Hmint. cbn [mint_from] in Hmint.
  destruct (createBlock secret None t0 "a") as [|c0] eqn:H0; [done|].
  destruct (createBlock secret (Some c0) t1 "b") as [|c1] eqn:H1; [done|].
  destruct (createBlock secret (Some c1) t2 "c") as [|c2] eqn:H2; [done|].
  injection Hmint as <-.
  apply createBlock_inr in H0 as (Hi0 & _ & _ & Hd0 & _ & _).
  apply createBlock_inr in H1 as (Hi1 & Hp1 & Ht1 & Hd1 & _ & _).
  apply createBlock_inr in H2 as (_ & _ & _ & Hd2 & _ & _).
  destruct (Hgeneral [c0; c1; c2] 1 c1 "B" Hvalid eq_refl)
    as (out & Hout & Hstatus & Hat & Hlinked & Hdata).
  { by rewrite Hd1. }
  destruct out as [|[b0 s0] [|[b1 s1] [|[b2 s2] [|]]]]; try done.
  cbn in Hstatus. injection Hstatus as -> -> ->.
  cbn in Hat. injection Hat as Hb1.
  exists b0, b1, b2. split_and!.
  - done.
  - cbn in Hdata. cbn. by rewrite Hdata, Hd0, Hd2.
  - pose proof (Hlinked 0 _ _ eq_refl eq_refl) as H01. cbn in H01.
    rewrite <- H01, Hb1. cbn. by rewrite Hi1, Hi0, Ht1.
  - by rewrite Hb1.
  - apply (Hlinked 1 _ _ eq_refl eq_refl).
Qed.

End CoreClaims.

(** * The secret *)

Section SecretClaim.

Context {primitives : Primitives}.
Implicit Types (st : Server) (secret : string).

(** Membership in a list of literals. *)
Ltac in_error_texts :=
  unfold error_texts;
  repeat first [apply list_elem_of_here | apply list_elem_of_further].

Lemma error_text_of_core (e : VerifierError) :
  VerifierError_toString e ∈ error_texts.
Proof. destruct e; in_error_texts. Qed.

(** The handlers answered by the core, as a step relation. *)
Lemma served_step secret st req st' resp :
  served secret (handle st req) (st', resp) → step secret st req st' resp.
Proof.
  intros Hserved.
  destruct req as [d| |i newData]; cbn [handle] in Hserved.
  - unfold create_handler in Hserved.
    apply served_create_block_inv in Hserved as (priorBlock & now & Hserved).
    destruct (createBlock secret priorBlock now d) as [e|newBlock] eqn:Hb;
      apply served_Done_inv in Hserved; injection Hserved as -> ->.
    + by eapply step_create_rejected.
    + by eapply step_create.
  - destruct (decide (blockchain st = [])) as [Hnil|Hne].
    + rewrite (information_handler_empty _ Hnil) in Hserved.
      apply served_Done_inv in Hserved. injection Hserved as -> ->.
      by apply step_information_empty.
    + rewrite (information_handler_nonempty _ Hne) in Hserved.
      apply served_information_inv in Hserved.
      destruct (inspect secret (chain_of st)) as [e|out] eqn:Hout;
        apply served_Done_inv in Hserved; injection Hserved as -> ->.
      * by apply step_information_rejected.
      * by apply step_information.
  - destruct (decide ((i < 0)%Z ∨ (i >= Z.of_nat (length (blockchain st)))%Z))
      as [Hout|Hin].
    + rewrite tamper_handler_out_of_range in Hserved by done.
      apply served_Done_inv in Hserved. injection Hserved as -> ->.
      by apply step_tamper_invalid.
    + destruct (tamper_handler_in_range st i newData) as (l & Hl & Ht); [lia|].
      rewrite Ht in Hserved.
      apply served_Done_inv in Hserved. injection Hserved as -> ->.
      apply step_tamper; [lia|done].
Qed.

(** Every body is a literal of the handlers, or [data] and [status] of what
    the inspector emitted, or a block the factory minted, or the text of an
    error of the core. *)
Lemma served_built_from_core secret st req st' resp :
  served secret (handle st req) (st', resp) →
  built_from_core secret st req resp.
Proof.
  intros Hstep%served_step. unfold built_from_core.
  destruct Hstep; simpl; eauto using error_text_of_core; in_error_texts.
Qed.

Lemma session_built_from_core secret exchanges st :
  session secret exchanges st →
  Forall (λ x, ∃ st0, built_from_core secret st0 x.1 x.2) exchanges.
Proof.
  induction 1 as [|xs st req st' resp _ IH Hserved]; [constructor|].
  apply Forall_app. split; [done|]. apply Forall_singleton.
  exists st. by eapply served_built_from_core.
Qed.

(** *** Where the strings of a body come from *)

Lemma supplied_by_snoc (xs : list (Request * Response)) req resp :
  supplied_by (xs ++ [(req, resp)]) = supplied_by xs ++ supplied req.
Proof.
  unfold supplied_by. rewrite fmap_app, concat_app. simpl.
  by rewrite (right_id_L [] (++)).
Qed.

Lemma inspect_data secret (chain : list Block) out :
  inspect secret chain = inr out →
  data <$> (block <$> out) = data <$> chain.
Proof. intros [_ ->]%inspect_inr. apply walk_data. Qed.

Lemma expose_data (out : list BlockInfo) :
  info_data <$> (expose <$> out) = data <$> (block <$> out).
Proof. rewrite <- !list_fmap_compose. by apply list_fmap_ext. Qed.

Lemma set_data_elem_of (chain : list Block) n newData s :
  s ∈ data <$> alter (set_data newData) n chain →
  s = newData ∨ s ∈ data <$> chain.
Proof.
  revert n. induction chain as [|b rest IH]; intros n; [by right|].
  destruct n as [|n]; cbn [alter list_alter]; rewrite !fmap_cons;
    intros [->|Hin]%elem_of_cons.
  - by left.
  - right. by apply list_elem_of_further.
  - right. apply list_elem_of_here.
  - destruct (IH n Hin) as [->|Hold]; [by left|].
    right. by apply list_elem_of_further.
Qed.

(** *** The key as a part of a string *)

Lemma prefixb_append key after : prefixb key (String.append key after) = true.
Proof.
  induction key as [|a key IH]; simpl; [done|]. by rewrite decide_True.
Qed.

Lemma occursb_prefix key s : prefixb key s = true → occursb key s = true.
Proof. destruct s; simpl; by intros ->. Qed.

Lemma occursb_complete key s : occurs key s → occursb key s = true.
Proof.
  intros (before & after & ->).
  induction before as [|a before IH].
  - apply occursb_prefix. exact (prefixb_append key after).
  - change (String.append (String a before) (String.append key after))
      with (String a (String.append before (String.append key after))).
    cbn [occursb]. rewrite IH. apply orb_true_r.
Qed.

Lemma error_texts_key_free s : s ∈ error_texts → ¬ occurs SECRET_KEY s.
Proof.
  intros Hs Hocc%occursb_complete. unfold error_texts in Hs.
  repeat (apply elem_of_cons in Hs as [->|Hs]; [by vm_compute in Hocc|]).
  by apply elem_of_nil in Hs.
Qed.

(** *** Where the strings of a body come from, exchange by exchange *)

Variable Hash_text : Hash → string.
Variable Sig_text : Sig → string.

Lemma step_leaves secret st req st' resp (known : list string) :
  well_formed st →
  (∀ s, s ∈ data <$> chain_of st → s ∈ known) →
  step secret st req st' resp →
  (∀ s, s ∈ data <$> chain_of st' → s ∈ known ++ supplied req)
  ∧ (∀ s, s ∈ leaves Hash_text Sig_text (body resp) →
          accounted Hash_text Sig_text secret (known ++ supplied req) s).
Proof.
  intros Hwf Hchain Hstep.
  assert (∀ s, s ∈ known → s ∈ known ++ supplied req) as Hmono.
  { intros s Hs. apply elem_of_app. by left. }
  assert (∀ s, s ∈ supplied req → s ∈ known ++ supplied req) as Hnew.
  { intros s Hs. apply elem_of_app. by right. }
  destruct Hstep as [st d priorBlock now e Hb
                    |st d priorBlock now newBlock Hb
                    |st Hnil
                    |st e Hne Hout
                    |st out Hne Hout
                    |st i newData Hi
                    |st i newData l Hi Hl].
  - split; [auto|]. simpl. intros s ->%list_elem_of_singleton.
    left. apply error_text_of_core.
  - apply createBlock_inr in Hb as (_ & _ & _ & Hd & _ & Hsig).
    split.
    + rewrite chain_of_push by done. rewrite fmap_app. simpl.
      intros s [Hs| ->%list_elem_of_singleton]%elem_of_app; [auto|].
      apply Hnew. rewrite Hd. apply list_elem_of_here.
    + simpl. intros s Hs.
      apply elem_of_cons in Hs as [->|Hs].
      { right. left. apply Hnew. rewrite Hd. apply list_elem_of_here. }
      apply elem_of_cons in Hs as [->|Hs].
      { right. right. left. by eexists. }
      apply elem_of_cons in Hs as [->|Hs].
      { right. right. left. by eexists. }
      apply list_elem_of_singleton in Hs as ->.
      right. right. right. rewrite Hsig. by eexists.
  - split; [auto|]. simpl. intros s ->%list_elem_of_singleton.
    left. in_error_texts.
  - split; [auto|]. simpl. intros s ->%list_elem_of_singleton.
    left. apply error_text_of_core.
  - apply inspect_data in Hout.
    split.
    + rewrite chain_of_reassign, !fmap_reverse, Hout.
      intros s Hs. rewrite elem_of_reverse in Hs. apply Hmono, Hchain, Hs.
    + simpl. rewrite expose_data, !fmap_reverse, Hout.
      intros s Hs. rewrite elem_of_reverse in Hs. right. left.
      apply Hmono, Hchain, Hs.
  - split; [auto|]. simpl. intros s ->%list_elem_of_singleton.
    left. in_error_texts.
  - split.
    + rewrite chain_of_assign_data by done.
      intros s [->|Hs]%set_data_elem_of; [|auto].
      apply Hnew. apply list_elem_of_here.
    + simpl. intros s Hs. by apply elem_of_nil in Hs.
Qed.

(** The data of every stored block came in with a request, and every
    string of the body of the [i]-th response is accounted for by the
    requests up to the [i]-th. *)
Lemma session_leaves secret exchanges st :
  session secret exchanges st →
  (∀ s, s ∈ data <$> chain_of st → s ∈ supplied_by exchanges)
  ∧ ∀ i req resp,
      exchanges !! i = Some (req, resp) →
      ∀ s, s ∈ leaves Hash_text Sig_text (body resp) →
           accounted Hash_text Sig_text secret
             (supplied_by (take (S i) exchanges)) s.
Proof.
  induction 1 as [|xs st req st' resp Hsession [IHchain IHbodies] Hserved].
  { split; [|done]. intros s Hs. by apply elem_of_nil in Hs. }
  pose proof (reachable_well_formed _ (session_reachable _ _ _ Hsession))
    as Hwf.
  apply served_step in Hserved.
  destruct (step_leaves _ _ _ _ _ (supplied_by xs) Hwf IHchain Hserved)
    as [Hchain Hbody].
  split; [by rewrite supplied_by_snoc|].
  intros i req0 resp0 Hi s Hs.
  destruct (decide (i < length xs)%nat) as [Hlt|Hge].
  - rewrite lookup_app_l in Hi by done.
    rewrite take_app_le by lia. by eapply IHbodies.
  - rewrite lookup_app_r in Hi by lia.
    destruct (i - length xs)%nat as [|n] eqn:Hn; [|done].
    simpl in Hi. injection Hi as <- <-.
    rewrite take_ge by (rewrite length_app; simpl; lia).
    rewrite supplied_by_snoc. by apply Hbody.
Qed.

(** The process run against a verifier that answers as the core does is
    a session. *)
Lemma play_session secret (v : Verifier) :
  (∀ (p : Handler (Server * Response)) s, served secret p (run v p s).1) →
  ∀ requests s st exchanges,
    session secret exchanges st →
    session secret (exchanges ++ (play v s st requests).1)
      (play v s st requests).2.
Proof.
  intros Hv requests.
  induction requests as [|req rest IH]; intros s st exchanges Hsession; simpl.
  { by rewrite (right_id_L [] (++)). }
  pose proof (Hv (handle st req) s) as Hserved.
  destruct (run v (handle st req) s) as [[st' resp] s'].
  specialize (IH s' st' (exchanges ++ [(req, resp)])).
  destruct (play v s' st' rest) as [more st'']; simpl in *.
  rewrite <- (assoc_L (++)) in IH. apply IH.
  by apply session_handle with st.
Qed.


End SecretClaim.

(** * The properties on concrete inputs *)

Lemma ideal_collision_free : collision_free ideal.
Proof. intros i t d p i' t' d' p' [= -> -> -> ->]. done. Qed.

Lemma abc_chain_minted : mint SECRET_KEY abc_entries = inr abc_chain.
Proof. reflexivity. Qed.

Lemma abc_server_well_formed : well_formed abc_server.
Proof.
  split.
  - apply (bool_decide_unpack _). reflexivity.
  - repeat constructor.
Qed.

(** [chaining_verifier] answers as the core does. *)
Lemma chaining_verifier_served {A} (p : Handler A) s :
  served SECRET_KEY p (run chaining_verifier p s).1.
Proof.
  revert s. induction p as [a|d k IH|chain k IH]; intros s.
  - constructor.
  - apply (served_create_block _ _ _ s.1 s.2). cbn [run].
    change (create_block chaining_verifier s d)
      with (match createBlock SECRET_KEY s.1 s.2 d with
            | inr newBlock =>
                (Returned newBlock, (Some newBlock, (s.2 + 10)%Z))
            | inl e => (Thrown (VerifierError_toString e), s)
            end).
    destruct (createBlock SECRET_KEY s.1 s.2 d) as [e|newBlock];
      cbn [thrown_or_returned]; apply IH.
  - apply served_information. cbn [run].
    change (information_of chaining_verifier s chain)
      with (thrown_or_returned (inspect SECRET_KEY chain), s).
    apply IH.
Qed.

Lemma scenario_session :
  session SECRET_KEY scenario_exchanges scenario_server.
Proof.
  apply (play_session SECRET_KEY chaining_verifier
           (λ p s, chaining_verifier_served p s)
           scenario_requests (None, 10%Z) initial []).
  constructor.
Qed.

Lemma echo_session : session SECRET_KEY echo_exchanges echo_server.
Proof.
  apply (play_session SECRET_KEY chaining_verifier
           (λ p s, chaining_verifier_served p s)
           [POST_create SECRET_KEY] (None, 10%Z) initial []).
  constructor.
Qed.

(** The ideal texts are made of digits, the key is not. *)
Lemma mentions_append a x y :
  mentions a (String.append x y) = mentions a x || mentions a y.
Proof.
  induction x as [|b x IH]; simpl; [done|]. by rewrite IH, orb_assoc.
Qed.

Lemma occurs_mentions a key s :
  occurs key s → mentions a key = true → mentions a s = true.
Proof.
  intros (before & after & ->) Hkey.
  rewrite !mentions_append, Hkey. by rewrite orb_true_r.
Qed.

Lemma ideal_Hash_text_digits h :
  mentions (Ascii.ascii_of_nat 115) (ideal_Hash_text h) = false.
Proof.
  induction h as [|i t d prev IH]; [done|].
  cbn [ideal_Hash_text]. by rewrite mentions_append, IH.
Qed.

Lemma ideal_Hash_text_key_free h : ¬ occurs SECRET_KEY (ideal_Hash_text h).
Proof.
  intros Hocc.
  apply (occurs_mentions (Ascii.ascii_of_nat 115)) in Hocc; [|reflexivity].
  by rewrite ideal_Hash_text_digits in Hocc.
Qed.

Lemma ideal_Sig_text_key_free sig : ¬ occurs SECRET_KEY (ideal_Sig_text sig).
Proof.
  destruct sig as [key h]. intros Hocc.
  apply (occurs_mentions (Ascii.ascii_of_nat 115)) in Hocc; [|reflexivity].
  unfold ideal_Sig_text in Hocc.
  rewrite mentions_append, ideal_Hash_text_digits in Hocc. discriminate.
Qed.

(** C1 on [abc_server], with the inspector emitting [aBc_inspected]. *)
Lemma information_handler_stores_reversed_witness :
  blockchain abc_server ≠ []
  ∧ ∃ st',
      information st' = expose <$> reverse aBc_inspected
      ∧ chain_of st' = reverse (block <$> aBc_inspected).
Proof.
  assert (blockchain abc_server ≠ []) as Hne by discriminate.
  split; [exact Hne|].
  destruct (information_handler_stores_reversed abc_server aBc_inspected Hne)
    as (_ & st' & _ & Hinfo & Hchain).
  exists st'. split; [exact Hinfo | exact Hchain].
Defined.

(** C2 on the chain "a", "b", "c" with block 1 edited to "B". *)
Lemma single_point_tamper_witness :
  collision_free ideal
  ∧ valid_chain SECRET_KEY abc_chain
  ∧ (∃ b, abc_chain !! 1 = Some b ∧ "B" ≠ data b)
  ∧ (∃ out,
       inspect SECRET_KEY (tamper 1 "B" abc_chain) = inr out
       ∧ status <$> out
         = replicate 1 Valid ++ Tampered
             :: replicate (length abc_chain - 2) Recovered)
  ∧ (∃ out,
       inspect SECRET_KEY (tamper 1 "B" abc_chain) = inr out
       ∧ status <$> out = [Valid; Tampered; Recovered]).
Proof.
  pose proof (mint_valid SECRET_KEY abc_entries abc_chain abc_chain_minted)
    as Hvalid.
  destruct (single_point_tamper (primitives:=ideal) SECRET_KEY
              ideal_collision_free) as [Hgeneral Hscenario].
  split; [exact ideal_collision_free|]. split; [exact Hvalid|].
  destruct (abc_chain !! 1) as [b|] eqn:Hb; [|discriminate].
  assert ("B" ≠ data b) as Hne by (injection Hb as <-; discriminate).
  split; [exists b; split; [reflexivity | exact Hne]|].
  split.
  - destruct (Hgeneral abc_chain 1 b "B" Hvalid Hb Hne)
      as (out & Hout & Hstatus & _).
    exists out. split; [exact Hout | exact Hstatus].
  - destruct (Hscenario 10%Z 20%Z 30%Z abc_chain abc_chain_minted)
      as (b0 & b1 & b2 & Hout & _).
    eexists. split; [exact Hout | reflexivity].
Defined.

(** C3 as stated fails on the edited chain: the first pass reports
    [Valid; Tampered; Recovered], the second pass over its output reports
    [Valid; Valid; Valid], so the statuses are not identical. *)
Lemma inspect_twice_statuses_differ :
  ∃ out out',
    inspect SECRET_KEY aBc_chain = inr out
    ∧ inspect SECRET_KEY (block <$> out) = inr out'
    ∧ status <$> out = [Valid; Tampered; Recovered]
    ∧ status <$> out' = [Valid; Valid; Valid]
    ∧ status <$> out' ≠ status <$> out.
Proof.
  eexists _, _. split_and!; [reflexivity|reflexivity|reflexivity|reflexivity|].
  discriminate.
Qed.

(** C3 (amended) on the edited chain. *)
Lemma inspect_twice_witness :
  inspect SECRET_KEY aBc_chain = inr aBc_inspected
  ∧ ∃ out',
      inspect SECRET_KEY (block <$> aBc_inspected) = inr out'
      ∧ block <$> out' = block <$> aBc_inspected
      ∧ Forall (λ blockInfo, status blockInfo = Valid) out'.
Proof.
  assert (inspect SECRET_KEY aBc_chain = inr aBc_inspected) as Hout
    by reflexivity.
  split; [exact Hout|].
  exact (inspect_twice SECRET_KEY aBc_chain aBc_inspected Hout).
Defined.

(** C4 as stated fails: the call made for a server holding "a", "b", "c"
    and the call made for the empty server are the same call, though the
    tails differ; the tail block is not among the arguments. *)
Lemma create_block_called_without_tail :
  invocation (create_handler abc_server "d") = Some (create_block_args "d")
  ∧ invocation (create_handler (initial (primitives:=ideal)) "d")
    = Some (create_block_args "d")
  ∧ tail abc_server ≠ tail (initial (primitives:=ideal)).
Proof. split_and!; [reflexivity|reflexivity|discriminate]. Qed.

(** C4 (amended) on [abc_server]. *)
Lemma create_handler_appends_witness :
  well_formed abc_server
  ∧ invocation (create_handler abc_server "d") = Some (create_block_args "d")
  ∧ ∃ st', chain_of st' = chain_of abc_server ++ [a_block].
Proof.
  split; [exact abc_server_well_formed|].
  destruct (create_handler_appends abc_server "d" abc_server_well_formed)
    as (Hcall & Hpush & _).
  split; [exact Hcall|].
  destruct (Hpush a_block) as (st' & _ & Hchain & _).
  exists st'. exact Hchain.
Defined.

(** C5 as stated fails at the exposed interface: on the empty stored chain
    the handler answers 404 with [success: false], not an empty result. *)
Lemma information_handler_empty_fails :
  information_handler (initial (primitives:=ideal))
  = Done (initial, {| code := 404; body := Body_error "No blocks found" |})
  ∧ success (primitives:=ideal)
      {| code := 404; body := Body_error "No blocks found" |} = false
  ∧ information_handler (initial (primitives:=ideal))
    ≠ Done (initial, {| code := 200; body := Body_information [] |}).
Proof. split_and!; [reflexivity|reflexivity|discriminate]. Qed.

(** C5 (amended) on the initial state. *)
Lemma empty_chain_not_inspected_witness :
  blockchain (initial (primitives:=ideal)) = []
  ∧ inspect (primitives:=ideal) SECRET_KEY [] = inr []
  ∧ invocation (information_handler (initial (primitives:=ideal))) = None.
Proof.
  assert (blockchain (initial (primitives:=ideal)) = []) as Hnil
    by reflexivity.
  split; [exact Hnil|].
  destruct (empty_chain_not_inspected initial SECRET_KEY Hnil)
    as (Hinspect & Hcall & _).
  split; [exact Hinspect | exact Hcall].
Defined.

(** C6 against [genesis_verifier]: the factory rejects the empty data, and
    the inspector rejects the newest-first chain of [cba_server]. *)
Lemma errors_leave_state_witness :
  create_block genesis_verifier () "" = (Thrown "InvalidInputError", ())
  ∧ run genesis_verifier (create_handler cba_server "") ()
    = ((cba_server,
        {| code := 400; body := Body_error "InvalidInputError" |}), ())
  ∧ blockchain cba_server ≠ []
  ∧ information_of genesis_verifier () (chain_of cba_server)
    = (Thrown "MalformedChainError", ())
  ∧ run genesis_verifier (information_handler cba_server) ()
    = ((cba_server,
        {| code := 400; body := Body_error "MalformedChainError" |}), ()).
Proof.
  assert (create_block genesis_verifier () ""
          = (Thrown "InvalidInputError", ())) as Hcreate by reflexivity.
  assert (blockchain cba_server ≠ []) as Hne by discriminate.
  assert (information_of genesis_verifier () (chain_of cba_server)
          = (Thrown "MalformedChainError", ())) as Hinform by reflexivity.
  split; [exact Hcreate|].
  split.
  { exact (proj1 (errors_leave_state genesis_verifier () () cba_server ""
                    "InvalidInputError") Hcreate). }
  split; [exact Hne|]. split; [exact Hinform|].
  exact (proj1 (proj2 (errors_leave_state genesis_verifier () () cba_server ""
                         "MalformedChainError")) Hne Hinform).
Defined.

(** C8 on [abc_server], editing block 1 to "B". *)
Lemma tamper_changes_data_only_witness :
  well_formed abc_server
  ∧ (0 ≤ 1 < Z.of_nat (length (blockchain abc_server)))%Z
  ∧ ∃ st',
      tamper_handler abc_server 1 "B"
      = Done (st', {| code := 200; body := Body_success |})
      ∧ information st' = information abc_server
      ∧ (∀ j, j ≠ Z.to_nat 1 → chain_of st' !! j = chain_of abc_server !! j).
Proof.
  assert (0 ≤ 1 < Z.of_nat (length (blockchain abc_server)))%Z as Hi
    by (simpl; lia).
  split; [exact abc_server_well_formed|]. split; [exact Hi|].
  destruct (tamper_changes_data_only abc_server 1 "B"
              abc_server_well_formed Hi)
    as (st' & Hdone & Hinfo & _ & _ & _ & Hothers).
  exists st'. split; [exact Hdone|]. split; [exact Hinfo | exact Hothers].
Defined.



(** C10 on [abc_server], at the first index past the end. *)
Lemma tamper_invalid_index_witness :
  ((3 < 0)%Z ∨ (3 >= Z.of_nat (length (blockchain abc_server)))%Z)
  ∧ ∃ st',
      tamper_handler abc_server 3 "x"
      = Done (st', {| code := 400; body := Body_error "Invalid block index" |})
      ∧ success (primitives:=ideal)
          {| code := 400; body := Body_error "Invalid block index" |} = false
      ∧ st' = abc_server.
Proof.
  assert ((3 < 0)%Z ∨ (3 >= Z.of_nat (length (blockchain abc_server)))%Z)
    as Hi by (right; simpl; lia).
  split; [exact Hi|].
  exact (tamper_invalid_index abc_server 3 "x" Hi).
Defined.

(** Two [GET /api/information] in a row on [abc_server], answered by the
    core: the first stores the chain newest-first, and the inspector then
    rejects the stored chain. *)
Example information_twice_on_abc :
  ∃ st' entries,
    (run genesis_verifier (information_handler abc_server) ()).1
    = (st', {| code := 200; body := Body_information entries |})
    ∧ info_data <$> entries = ["c"; "b"; "a"]
    ∧ index <$> chain_of st' = [2; 1; 0]
    ∧ (run genesis_verifier (information_handler st') ()).1
      = (st', {| code := 400; body := Body_error "MalformedChainError" |}).
Proof.
  eexists _, _. split_and!; reflexivity.
Qed.

(** * Further properties of the handlers *)

Section HandlerProperties.

Context {primitives : Primitives}.
Implicit Types (st : Server) (b : Block) (c : Client).

Lemma outcome_create_block_inv {A} d k (a : A) :
  outcome (verifier_create_block d k) a → ∃ r, outcome (k r) a.
Proof. inversion 1; subst. eauto. Qed.

Lemma outcome_information_inv {A} chain k (a : A) :
  outcome (verifier_information chain k) a → ∃ r, outcome (k r) a.
Proof. inversion 1; subst. eauto. Qed.

(** The handlers as a relation between states. *)
Lemma outcome_answers st req st' resp :
  outcome (handle st req) (st', resp) → answers st req st' resp.
Proof.
  intros Hout. destruct req as [d| |i newData]; cbn [handle] in Hout.
  - unfold create_handler in Hout.
    apply outcome_create_block_inv in Hout as [[newBlock|error] Hout];
      apply outcome_Done_inv in Hout; injection Hout as -> ->; constructor.
  - destruct (decide (blockchain st = [])) as [Hnil|Hne].
    + rewrite (information_handler_empty _ Hnil) in Hout.
      apply outcome_Done_inv in Hout. injection Hout as -> ->.
      by constructor.
    + rewrite (information_handler_nonempty _ Hne) in Hout.
      apply outcome_information_inv in Hout as [[out|error] Hout];
        apply outcome_Done_inv in Hout; injection Hout as -> ->;
        by constructor.
  - destruct (decide ((i < 0)%Z ∨ (i >= Z.of_nat (length (blockchain st)))%Z))
      as [Hi|Hi].
    + rewrite tamper_handler_out_of_range in Hout by done.
      apply outcome_Done_inv in Hout. injection Hout as -> ->.
      by constructor.
    + destruct (tamper_handler_in_range st i newData) as (l & Hl & Ht); [lia|].
      rewrite Ht in Hout.
      apply outcome_Done_inv in Hout. injection Hout as -> ->.
      constructor; [lia|done].
Qed.

Lemma answers_outcome st req st' resp :
  answers st req st' resp → outcome (handle st req) (st', resp).
Proof.
  destruct 1 as [st d error|st d newBlock|st Hnil|st error Hne|st out Hne
                |st i newData Hi|st i newData l Hi Hl]; cbn [handle].
  - apply (outcome_create_block _ _ (Thrown error)). constructor.
  - apply (outcome_create_block _ _ (Returned newBlock)). constructor.
  - rewrite (information_handler_empty _ Hnil). constructor.
  - rewrite (information_handler_nonempty _ Hne).
    apply (outcome_information _ _ (Thrown error)). constructor.
  - rewrite (information_handler_nonempty _ Hne).
    apply (outcome_information _ _ (Returned out)). constructor.
  - rewrite tamper_handler_out_of_range by done. constructor.
  - destruct (tamper_handler_in_range st i newData Hi) as (l' & Hl' & ->).
    rewrite Hl in Hl'. injection Hl' as <-. constructor.
Qed.

Lemma outcome_bind_inv {A B} (p : Handler A) (f : A → Handler B) res :
  outcome (Handler_bind p f) res → ∃ a, outcome p a ∧ outcome (f a) res.
Proof.
  induction p as [a|d k IH|chain k IH]; cbn [Handler_bind]; intros Hout.
  - exists a. split; [constructor|done].
  - apply outcome_create_block_inv in Hout as [r Hout].
    destruct (IH r Hout) as (a & Ha & Hf).
    exists a. split; [by econstructor|done].
  - apply outcome_information_inv in Hout as [r Hout].
    destruct (IH r Hout) as (a & Ha & Hf).
    exists a. split; [by econstructor|done].
Qed.

Lemma outcome_bind {A B} (p : Handler A) (f : A → Handler B) a res :
  outcome p a → outcome (f a) res → outcome (Handler_bind p f) res.
Proof.
  induction 1 as [a|d k r a _ IH|chain k r a _ IH]; cbn [Handler_bind];
    intros Hf; [done|..]; econstructor; eauto.
Qed.

(** The chain held by references to a run of new objects. *)
Lemma chain_of_fresh (h : list Block) (state : list BlockInfo) info :
  chain_of {| heap := h ++ (block <$> state);
              blockchain := seq (length h) (length state);
              information := info |}
  = block <$> state.
Proof.
  unfold chain_of; simpl.
  rewrite <- (length_fmap block state). apply deref_fresh.
Qed.

(** What [POST /api/tamper] does with each kind of [index]. *)
Lemma tamper_route_outcome st index newData st' reply :
  outcome (tamper_route st index newData) (st', reply) →
  (∃ i resp,
     index = index_number i ∧ reply = Sent resp
     ∧ answers st (POST_tamper i newData) st' resp)
  ∨ (st' = st ∧ index = index_null ∧ blockchain st = []
     ∧ reply = Sent {| code := 400; body := Body_error "Invalid block index" |})
  ∨ (st' = st ∧ reply = Uncaught "TypeError"
     ∧ (index = index_undefined ∨ index = index_null ∧ blockchain st ≠ []))
  ∨ (st' = st
     ∧ ∃ floor,
         index = index_fraction floor
         ∧ (((floor < 0)%Z ∨ (floor >= Z.of_nat (length (blockchain st)))%Z)
            ∧ reply = Sent {| code := 400;
                              body := Body_error "Invalid block index" |}
            ∨ (0 ≤ floor < Z.of_nat (length (blockchain st)))%Z
              ∧ reply = Uncaught "TypeError")).
Proof.
  destruct index as [i|floor| |]; cbn [tamper_route]; intros Hout.
  - apply outcome_bind_inv in Hout as ([st1 resp] & Hhandler & Hdone).
    apply outcome_Done_inv in Hdone. injection Hdone as -> ->.
    left. exists i, resp. split_and!; try done.
    by apply (outcome_answers st (POST_tamper i newData)).
  - destruct (decide _) as [Hguard|Hguard];
      apply outcome_Done_inv in Hout; injection Hout as -> ->.
    + do 3 right. split; [done|]. exists floor. split; [done|]. by left.
    + do 3 right. split; [done|]. exists floor. split; [done|].
      right. split; [lia|done].
  - destruct (decide _) as [Hguard|Hguard];
      apply outcome_Done_inv in Hout; injection Hout as -> ->.
    + right. left. split_and!; try done.
      apply nil_length_inv. lia.
    + do 2 right. left. split_and!; try done. right. split; [done|].
      intros Hnil. apply Hguard. right. rewrite Hnil. simpl. lia.
  - apply outcome_Done_inv in Hout. injection Hout as -> ->.
    do 2 right. left. split_and!; try done. by left.
Qed.

(** What the create and the information handler send. *)
Lemma outcome_Sent_inv (p : Handler (Server * Response)) st' reply :
  outcome
    (Handler_bind p (λ '(st1, resp), Done (st1, Sent resp))) (st', reply) →
  ∃ resp, reply = Sent resp ∧ outcome p (st', resp).
Proof.
  intros ([st1 resp] & Hp & Hdone)%outcome_bind_inv.
  apply outcome_Done_inv in Hdone. injection Hdone as -> ->. eauto.
Qed.

(** X1. Of a request that reaches a handler, its [data] or [newData] a
    string and its [index] a finite number, [null] or absent, and whatever
    the verifier replies. When the handler answers [success: false], the
    heap, the stored chain and [information] are as they were; the status
    code it sends is 200 exactly when the body says [success: true], and
    otherwise 400 or 404. When the handler throws instead, which only the
    tamper handler does, on an index that passes the guard and is not an
    integer ([null] on a stored chain that is not empty, a missing index, a
    fraction within the range), they are as they were as well. The
    answers 413 of the body parser and 500 of the framework are not sent
    by a handler. *)
Theorem failing_response_leaves_state st a st' reply :
  outcome (route st a) (st', reply) →
  match reply with
  | Sent resp =>
      (success resp = false → st' = st)
      ∧ (success resp = true ↔ code resp = 200)
      ∧ (code resp = 200 ∨ code resp = 400 ∨ code resp = 404)
  | Uncaught _ =>
      st' = st
      ∧ ∃ index newData,
          a = arrival_tamper index newData
          ∧ (index = index_undefined
             ∨ index = index_null ∧ blockchain st ≠ []
             ∨ ∃ floor,
                 index = index_fraction floor
                 ∧ (0 ≤ floor < Z.of_nat (length (blockchain st)))%Z)
  end.
Proof.
  assert (∀ req resp,
            outcome (handle st req) (st', resp) →
            (success resp = false → st' = st)
            ∧ (success resp = true ↔ code resp = 200)
            ∧ (code resp = 200 ∨ code resp = 400 ∨ code resp = 404))
    as Hsent.
  { intros req resp Hout%outcome_answers.
    destruct Hout; simpl; split_and!; try done; auto;
      by (split; [done|discriminate]). }
  destruct a as [d| |index newData]; cbn [route]; intros Hout.
  - apply outcome_Sent_inv in Hout as (resp & -> & Hout).
    exact (Hsent (POST_create d) resp Hout).
  - apply outcome_Sent_inv in Hout as (resp & -> & Hout).
    exact (Hsent GET_information resp Hout).
  - apply tamper_route_outcome in Hout
      as [(i & resp & -> & -> & Hout)
         |[(-> & -> & _ & ->)
         |[(-> & -> & Hindex)
         |(-> & floor & -> & [[_ ->]|[Hfloor ->]])]]].
    + apply answers_outcome in Hout.
      exact (Hsent (POST_tamper i newData) resp Hout).
    + simpl. split_and!; try done; auto.
    + split; [done|]. exists index, newData. split; [done|].
      destruct Hindex as [->|[-> Hne]]; auto.
    + simpl. split_and!; try done; auto.
    + split; [done|]. exists (index_fraction floor), newData.
      split; [done|]. right. right. by exists floor.
Qed.

(** X2. In every state the process can reach, whatever the verifier
    replies, no two positions of the stored chain hold the same block
    object and every position holds an allocated one, as long as the
    verifier hands back a new object for every block. *)
Theorem blockchain_never_aliases st :
  reachable st →
  NoDup (blockchain st)
  ∧ Forall (λ l, l < length (heap st)) (blockchain st)
  ∧ length (chain_of st) = length (blockchain st).
Proof.
  intros Hwf%reachable_well_formed. pose proof Hwf as [Hnodup Hall].
  split_and!; [done|done|]. by apply chain_of_length.
Qed.

(** X3. After a successful [GET /api/information] the next one hands the
    inspector the reverse of what the inspector emitted. When the
    inspector keeps the [data] of the blocks in the order it is given
    them, the exposed order therefore flips with every call: the first
    call lists the stored data backwards, the second in the stored
    order. *)
Theorem information_order_flips st out1 st1 resp1 :
  on_information (information_handler st) (Returned out1)
  = Some (Done (st1, resp1)) →
  (out1 ≠ [] →
   invocation (information_handler st1)
   = Some (information_args (reverse (block <$> out1))))
  ∧ (out1 = [] →
     information_handler st1
     = Done (st1, {| code := 404; body := Body_error "No blocks found" |}))
  ∧ (∀ out2 st2 resp2,
       on_information (information_handler st1) (Returned out2)
       = Some (Done (st2, resp2)) →
       data <$> (block <$> out1) = data <$> chain_of st →
       data <$> (block <$> out2) = data <$> chain_of st1 →
       info_data <$> information st1 = reverse (data <$> chain_of st)
       ∧ info_data <$> information st2 = data <$> chain_of st
       ∧ data <$> chain_of st2 = data <$> chain_of st).
Proof.
  intros H1.
  assert (blockchain st ≠ []) as Hne.
  { intros Hnil. by rewrite (information_handler_empty _ Hnil) in H1. }
  rewrite (information_handler_nonempty _ Hne) in H1.
  unfold on_information in H1. injection H1 as <- <-.
  set (st1 := {| heap := heap st ++ (block <$> reverse out1);
                 blockchain := seq (length (heap st)) (length (reverse out1));
                 information := expose <$> reverse out1 |}).
  assert (chain_of st1 = reverse (block <$> out1)) as Hchain1.
  { unfold st1. by rewrite chain_of_reassign, fmap_reverse. }
  split_and!.
  - intros Hout1.
    assert (blockchain st1 ≠ []) as Hne1.
    { simpl. rewrite length_reverse. destruct out1; [done|]. discriminate. }
    rewrite (information_handler_nonempty _ Hne1). cbn [invocation].
    by rewrite Hchain1.
  - intros ->. by apply information_handler_empty.
  - intros out2 st2 resp2 H2 Hd1 Hd2.
    assert (blockchain st1 ≠ []) as Hne1.
    { intros Hnil. by rewrite (information_handler_empty _ Hnil) in H2. }
    rewrite (information_handler_nonempty _ Hne1) in H2.
    unfold on_information in H2. injection H2 as <- <-.
    rewrite chain_of_fresh. unfold st1 at 1. cbn [information].
    rewrite !expose_data, !fmap_reverse, Hd2, Hchain1, !fmap_reverse, Hd1.
    by rewrite reverse_involutive.
Qed.

(** X4. A block created after a successful [GET /api/information] is
    pushed behind the reversed chain: the stored chain is the inspector's
    sequence backwards, followed by the new block, and [information] does
    not show the new block. *)
Theorem create_after_information st out st1 resp1 d newBlock st2 resp2 :
  on_information (information_handler st) (Returned out)
  = Some (Done (st1, resp1)) →
  on_create_block (create_handler st1 d) (Returned newBlock)
  = Some (Done (st2, resp2)) →
  chain_of st2 = reverse (block <$> out) ++ [newBlock]
  ∧ information st2 = expose <$> reverse out
  ∧ invocation (information_handler st2)
    = Some (information_args (reverse (block <$> out) ++ [newBlock])).
Proof.
  intros H1 H2.
  assert (blockchain st ≠ []) as Hne.
  { intros Hnil. by rewrite (information_handler_empty _ Hnil) in H1. }
  rewrite (information_handler_nonempty _ Hne) in H1.
  unfold on_information in H1. injection H1 as <- <-.
  unfold create_handler, on_create_block in H2. injection H2 as <- <-.
  set (st1 := {| heap := heap st ++ (block <$> reverse out);
                 blockchain := seq (length (heap st)) (length (reverse out));
                 information := expose <$> reverse out |}).
  assert (well_formed st1) as Hwf1.
  { split; simpl; [apply NoDup_seq|].
    rewrite length_app, length_fmap. apply Forall_seq. lia. }
  assert (chain_of {| heap := heap st1 ++ [newBlock];
                      blockchain := blockchain st1 ++ [length (heap st1)];
                      information := information st1 |}
          = reverse (block <$> out) ++ [newBlock]) as Hchain.
  { rewrite (chain_of_push st1 newBlock _ Hwf1). unfold st1.
    by rewrite chain_of_reassign, fmap_reverse. }
  split_and!; [exact Hchain|done|].
  rewrite information_handler_nonempty.
  - cbn [invocation]. do 2 f_equal. exact Hchain.
  - simpl. intros Hnil. by apply app_nil in Hnil as [_ ?].
Qed.

(** X5. Two [POST /api/tamper] at the same index in range: the second
    write wins, the state is the one a single tamper with the second data
    leaves. *)
Theorem tamper_last_write_wins st i d1 d2 :
  (0 ≤ i < Z.of_nat (length (blockchain st)))%Z →
  ∃ st1 st2,
    tamper_handler st i d1
    = Done (st1, {| code := 200; body := Body_success |})
    ∧ tamper_handler st1 i d2
      = Done (st2, {| code := 200; body := Body_success |})
    ∧ tamper_handler st i d2
      = Done (st2, {| code := 200; body := Body_success |}).
Proof.
  intros Hi.
  destruct (tamper_handler_in_range st i d1 Hi) as (l & Hl & H1).
  destruct (tamper_handler_in_range st i d2 Hi) as (l' & Hl' & H2).
  rewrite Hl in Hl'. injection Hl' as <-.
  eexists _, _. split; [exact H1|]. split; [|exact H2].
  match goal with |- tamper_handler ?s _ _ = _ => set (st1 := s) end.
  destruct (tamper_handler_in_range st1 i d2) as (l1 & Hl1 & H12).
  { unfold st1. simpl. by rewrite length_insert. }
  rewrite H12. unfold st1 in Hl1 |- *. simpl in Hl1 |- *.
  rewrite (list_insert_id _ _ _ Hl) in Hl1. rewrite Hl in Hl1.
  injection Hl1 as <-.
  rewrite list_insert_insert_eq, list_alter_alter_eq.
  reflexivity.
Qed.

(** X6. Two [POST /api/tamper] at different indices in range can be made
    in either order: on a state where no two positions hold the same
    object both orders leave the same state. *)
Theorem tamper_commutes st i j d1 d2 :
  well_formed st →
  (0 ≤ i < Z.of_nat (length (blockchain st)))%Z →
  (0 ≤ j < Z.of_nat (length (blockchain st)))%Z →
  i ≠ j →
  ∃ st_i st_j st',
    tamper_handler st i d1
    = Done (st_i, {| code := 200; body := Body_success |})
    ∧ tamper_handler st_i j d2
      = Done (st', {| code := 200; body := Body_success |})
    ∧ tamper_handler st j d2
      = Done (st_j, {| code := 200; body := Body_success |})
    ∧ tamper_handler st_j i d1
      = Done (st', {| code := 200; body := Body_success |}).
Proof.
  intros [Hnodup _] Hi Hj Hij.
  destruct (tamper_handler_in_range st i d1 Hi) as (li & Hli & H1).
  destruct (tamper_handler_in_range st j d2 Hj) as (lj & Hlj & H2).
  assert (li ≠ lj) as Hl.
  { intros ->. apply Hij.
    pose proof (NoDup_lookup _ _ _ _ Hnodup Hli Hlj). lia. }
  eexists _, _, _. split; [exact H1|].
  split; [|split; [exact H2|]].
  - match goal with |- tamper_handler ?s _ _ = _ => set (st_i := s) end.
    destruct (tamper_handler_in_range st_i j d2) as (l & Hl' & H12).
    { unfold st_i. simpl. by rewrite length_insert. }
    rewrite H12. unfold st_i in Hl' |- *. simpl in Hl' |- *.
    rewrite (list_insert_id _ _ _ Hli) in Hl' |- *. rewrite Hlj in Hl'.
    injection Hl' as <-. reflexivity.
  - match goal with |- tamper_handler ?s _ _ = _ => set (st_j := s) end.
    destruct (tamper_handler_in_range st_j i d1) as (l & Hl' & H21).
    { unfold st_j. simpl. by rewrite length_insert. }
    rewrite H21. unfold st_j in Hl' |- *. simpl in Hl' |- *.
    rewrite (list_insert_id _ _ _ Hlj) in Hl' |- *. rewrite Hli in Hl'.
    injection Hl' as <-.
    rewrite ?(list_insert_id _ _ _ Hli), ?(list_insert_id _ _ _ Hlj).
    do 3 f_equal. by apply list_alter_alter_ne.
Qed.

End HandlerProperties.

(** * Properties of the client *)

(** X7. The class [getStatusColor] gives is the gray default exactly for
    the numbers that are not the ordinal of a status, and two different
    statuses never get the same class. *)
Theorem getStatusColor_decodes :
  (∀ n, getStatusColor n = "bg-gray-100 border-gray-500"
        ↔ Status_of_ordinal n = None)
  ∧ (∀ s1 s2,
       getStatusColor (Status_ordinal s1) = getStatusColor (Status_ordinal s2) →
       s1 = s2).
Proof.
  split.
  - intros n. unfold getStatusColor, Status_of_ordinal, Status_ordinal.
    repeat case_decide; split; try done; lia.
  - by intros [] [].
Qed.

Section ClientProperties.

Context {primitives : Primitives}.
Variable platform : Platform.
Implicit Types (st : Server) (c : Client).

Lemma App_fetchInformation_inv c st c' st' :
  outcome (App_fetchInformation c st) (c', st') →
  ∃ data,
    answers st GET_information st' data ∧ c' = receive_information data c.
Proof.
  unfold App_fetchInformation.
  intros ([st1 data] & Hget & Hdone)%outcome_bind_inv.
  apply outcome_Done_inv in Hdone. injection Hdone as -> ->.
  exists data. split; [|done]. by apply (outcome_answers st GET_information).
Qed.

(** X8. [fetchInformation] never touches the three input cells. Either the
    server answers with an error, and then the list shown and the server
    are as before and exactly one destructive toast carries the error's
    text (on an empty stored chain: "No blocks found"); or the list shown
    becomes the server's new [information], with no toast. *)
Theorem App_fetchInformation_outcome c st c' st' :
  outcome (App_fetchInformation c st) (c', st') →
  newBlockData c' = newBlockData c
  ∧ tamperIndex c' = tamperIndex c
  ∧ tamperData c' = tamperData c
  ∧ ((∃ error,
        st' = st
        ∧ App_blockchain c' = App_blockchain c
        ∧ toasts c'
          = toasts c
            ++ [{| description :=
                     String.append "Failed to fetch blockchain information: "
                       error;
                   destructive := true |}]
        ∧ (blockchain st = [] → error = "No blocks found"))
     ∨ (blockchain st ≠ []
        ∧ toasts c' = toasts c
        ∧ App_blockchain c' = Some (information st')
        ∧ ∃ out,
            chain_of st' = reverse (block <$> out)
            ∧ information st' = expose <$> reverse out)).
Proof.
  intros (data & Hget & ->)%App_fetchInformation_inv.
  inversion Hget as [| |? Hnil|? error Hne|? out Hne| |]; subst;
    unfold receive_information; cbn [body]; split_and!; try done.
  - left. exists "No blocks found". done.
  - left. exists error. done.
  - right. split_and!; try done. exists out. split; [|done].
    by rewrite chain_of_reassign, fmap_reverse.
Qed.

Lemma App_fetchInformation_shows c st c' st' :
  App_blockchain c = Some (information st) →
  outcome (App_fetchInformation c st) (c', st') →
  App_blockchain c' = Some (information st').
Proof.
  intros Hinv (data & Hget & ->)%App_fetchInformation_inv.
  inversion Hget; subst; unfold receive_information; cbn [body]; done.
Qed.

(** [fetchInformation] on a stored chain that is not empty. *)
Lemma App_refresh_outcome c st c' st' :
  blockchain st ≠ [] →
  outcome (App_fetchInformation c st) (c', st') →
  ∃ data,
    answers st GET_information st' data
    ∧ c' = receive_information data c
    ∧ newBlockData c' = newBlockData c
    ∧ tamperIndex c' = tamperIndex c
    ∧ tamperData c' = tamperData c
    ∧ ((∃ error,
          data = {| code := 400; body := Body_error error |}
          ∧ st' = st
          ∧ App_blockchain c' = App_blockchain c
          ∧ toasts c'
            = toasts c
              ++ [{| description :=
                       String.append
                         "Failed to fetch blockchain information: " error;
                     destructive := true |}])
       ∨ (data = {| code := 200;
                    body := Body_information (information st') |}
          ∧ App_blockchain c' = Some (information st')
          ∧ toasts c' = toasts c)).
Proof.
  intros Hne (data & Hget & ->)%App_fetchInformation_inv.
  exists data. split; [done|]. split; [done|].
  inversion Hget as [| |? Hnil|? error _|? out _| |]; subst;
    unfold receive_information; cbn [body]; [done|..].
  - split_and!; try done. left. by exists error.
  - split_and!; try done. right. done.
Qed.

(** X9. On one page opened on a server that has just started, each
    request being answered before the next action, the list the page shows
    is at every moment the server's [information] variable, whatever the
    user does, whatever the verifier replies and whichever bodies the
    parser refuses. *)
Theorem App_shows_information c st :
  App_reachable platform c st → App_blockchain c = Some (information st).
Proof.
  induction 1 as [|c st a c' st' _ IH Hout]; [done|].
  destruct a as [|value|value|value| |]; cbn [App_act] in Hout.
  - by eapply App_fetchInformation_shows.
  - apply outcome_Done_inv in Hout. by injection Hout as -> ->.
  - apply outcome_Done_inv in Hout. by injection Hout as -> ->.
  - apply outcome_Done_inv in Hout. by injection Hout as -> ->.
  - unfold App_create in Hout.
    destruct (create_too_large platform (newBlockData c)).
    { apply outcome_Done_inv in Hout. by injection Hout as -> ->. }
    apply outcome_bind_inv in Hout as ([st1 result] & Hpost & Hrest).
    apply (outcome_answers st (POST_create _)) in Hpost.
    inversion Hpost; subst; cbn [body] in Hrest.
    + apply outcome_Done_inv in Hrest. by injection Hrest as -> ->.
    + by eapply App_fetchInformation_shows in Hrest.
  - unfold App_tamper in Hout. cbv zeta in Hout.
    destruct (tamper_too_large platform _ (tamperData c)).
    { apply outcome_Done_inv in Hout. by injection Hout as -> ->. }
    apply outcome_bind_inv in Hout as ([st1 reply] & Hpost & Hrest).
    apply tamper_route_outcome in Hpost
      as [(i & resp & _ & -> & Hpost)
         |[(-> & _ & _ & ->)
         |[(-> & -> & _)
         |(-> & floor & _ & [[_ ->]|[_ ->]])]]].
    + inversion Hpost; subst; cbn [body] in Hrest.
      * apply outcome_Done_inv in Hrest. by injection Hrest as -> ->.
      * by eapply App_fetchInformation_shows in Hrest.
    + cbn [body] in Hrest.
      apply outcome_Done_inv in Hrest. by injection Hrest as -> ->.
    + apply outcome_Done_inv in Hrest. by injection Hrest as -> ->.
    + cbn [body] in Hrest.
      apply outcome_Done_inv in Hrest. by injection Hrest as -> ->.
    + apply outcome_Done_inv in Hrest. by injection Hrest as -> ->.
Qed.

(** The page and the server after a run of actions are reachable. *)
Lemma App_play_reachable (v : Verifier) actions :
  ∀ s c st,
    App_reachable platform c st →
    App_reachable platform (App_play platform v s c st actions).1
      (App_play platform v s c st actions).2.
Proof.
  induction actions as [|a rest IH]; intros s c st Hreach; simpl; [done|].
  pose proof (run_outcome v (App_act platform c st a) s) as Hout.
  destruct (run v (App_act platform c st a) s) as [[c' st'] s'].
  apply IH. by eapply App_reachable_act.
Qed.

(** X10. [create] leaves the tamper form alone, and ends in one of three
    ways. When the body is over the parser's limit the answer is not
    JSON: the page stays as it is, and so does the server. When the
    verifier rejects the data the page shows one destructive toast with
    the error's text, keeps the typed data and makes no further request,
    and the server is as before. Otherwise the block was pushed, the data
    input is cleared, the success toast is shown, and the list is
    refreshed by one [GET /api/information] on the grown chain: either it
    is answered 400, and then the list shown stays and a second toast
    carries the error's text, or the list shown becomes the server's new
    [information]. *)
Theorem App_create_outcome c st c' st' :
  outcome (App_create platform c st) (c', st') →
  tamperIndex c' = tamperIndex c
  ∧ tamperData c' = tamperData c
  ∧ ((create_too_large platform (newBlockData c) = true
      ∧ c' = c ∧ st' = st)
     ∨ (create_too_large platform (newBlockData c) = false
        ∧ ∃ error,
            st' = st
            ∧ c' = toast {| description :=
                              String.append "Failed to create block: " error;
                            destructive := true |} c)
     ∨ (create_too_large platform (newBlockData c) = false
        ∧ ∃ newBlock st1 data,
            st1 = {| heap := heap st ++ [newBlock];
                     blockchain := blockchain st ++ [length (heap st)];
                     information := information st |}
            ∧ answers st1 GET_information st' data
            ∧ newBlockData c' = ""
            ∧ ((∃ error,
                  data = {| code := 400; body := Body_error error |}
                  ∧ st' = st1
                  ∧ App_blockchain c' = App_blockchain c
                  ∧ toasts c'
                    = toasts c
                      ++ [{| description := "Block created successfully 🎉";
                             destructive := false |};
                          {| description :=
                               String.append
                                 "Failed to fetch blockchain information: "
                                 error;
                             destructive := true |}])
               ∨ (data = {| code := 200;
                            body := Body_information (information st') |}
                  ∧ App_blockchain c' = Some (information st')
                  ∧ toasts c'
                    = toasts c
                      ++ [{| description := "Block created successfully 🎉";
                             destructive := false |}])))).
Proof.
  unfold App_create.
  destruct (create_too_large platform (newBlockData c)) eqn:Hlarge.
  { intros Hout%outcome_Done_inv. injection Hout as -> ->.
    split_and!; [done|done|]. by left. }
  intros ([st1 result] & Hpost & Hrest)%outcome_bind_inv.
  apply (outcome_answers st (POST_create _)) in Hpost.
  inversion Hpost as [? ? error|? ? newBlock| | | | |]; subst;
    cbn [body] in Hrest.
  - apply outcome_Done_inv in Hrest. injection Hrest as -> ->.
    split_and!; [done|done|]. right. left. split; [done|]. by exists error.
  - apply App_refresh_outcome in Hrest
      as (data & Hget & -> & Hn & Hi & Hd & Hrefresh);
      [|simpl; by intros [_ ?]%app_eq_nil].
    split_and!; [by rewrite Hi|by rewrite Hd|].
    right. right. split; [done|]. eexists newBlock, _, data.
    split; [done|]. split; [done|]. split; [by rewrite Hn|].
    destruct Hrefresh as [(error & -> & -> & Hshown & Htoasts)
                         |(-> & Hshown & Htoasts)].
    + left. exists error. split_and!; try done.
      rewrite Htoasts. simpl. by rewrite <- (assoc_L (++)).
    + right. split_and!; try done.
Qed.

(** X11. [tamper] leaves the create form alone, and ends in one of four
    ways. When the body is over the parser's limit the answer is not
    JSON: the page stays as it is, and so does the server. When the index
    field does not parse ([NaN], sent as [null]) and the stored chain is
    not empty, the handler throws: nothing is stored, and the page shows
    no toast and clears nothing. When the index is out of range, or does
    not parse on an empty stored chain, the page shows the toast "Failed
    to tamper block: Invalid block index" and the server is as before.
    Otherwise the block at the index has the typed data, both tamper
    inputs are cleared, the success toast is shown, and the list is
    refreshed by one [GET /api/information]: either it is answered 400,
    and then the list shown stays and a second toast carries the error's
    text, or the list shown becomes the server's new [information]. *)
Theorem App_tamper_outcome c st c' st' :
  outcome (App_tamper platform c st) (c', st') →
  newBlockData c' = newBlockData c
  ∧ ((tamper_too_large platform (parseInt platform (tamperIndex c))
        (tamperData c) = true
      ∧ c' = c ∧ st' = st)
     ∨ (tamper_too_large platform (parseInt platform (tamperIndex c))
          (tamperData c) = false
        ∧ parseInt platform (tamperIndex c) = None ∧ blockchain st ≠ []
        ∧ c' = c ∧ st' = st)
     ∨ (tamper_too_large platform (parseInt platform (tamperIndex c))
          (tamperData c) = false
        ∧ ((∃ i, parseInt platform (tamperIndex c) = Some i
                 ∧ ((i < 0)%Z ∨ (i >= Z.of_nat (length (blockchain st)))%Z))
           ∨ (parseInt platform (tamperIndex c) = None ∧ blockchain st = []))
        ∧ st' = st
        ∧ c' = toast {| description :=
                          "Failed to tamper block: Invalid block index";
                        destructive := true |} c)
     ∨ (tamper_too_large platform (parseInt platform (tamperIndex c))
          (tamperData c) = false
        ∧ ∃ i l st1 data,
            parseInt platform (tamperIndex c) = Some i
            ∧ (0 ≤ i < Z.of_nat (length (blockchain st)))%Z
            ∧ blockchain st !! Z.to_nat i = Some l
            ∧ st1 = {| heap := alter (set_data (tamperData c)) l (heap st);
                       blockchain := <[Z.to_nat i := l]> (blockchain st);
                       information := information st |}
            ∧ answers st1 GET_information st' data
            ∧ tamperIndex c' = "" ∧ tamperData c' = ""
            ∧ ((∃ error,
                  data = {| code := 400; body := Body_error error |}
                  ∧ st' = st1
                  ∧ App_blockchain c' = App_blockchain c
                  ∧ toasts c'
                    = toasts c
                      ++ [{| description :=
                               "Block tampered with successfully";
                             destructive := false |};
                          {| description :=
                               String.append
                                 "Failed to fetch blockchain information: "
                                 error;
                             destructive := true |}])
               ∨ (data = {| code := 200;
                            body := Body_information (information st') |}
                  ∧ App_blockchain c' = Some (information st')
                  ∧ toasts c'
                    = toasts c
                      ++ [{| description :=
                               "Block tampered with successfully";
                             destructive := false |}])))).
Proof.
  unfold App_tamper. cbv zeta.
  destruct (tamper_too_large platform (parseInt platform (tamperIndex c))
              (tamperData c)) eqn:Hlarge.
  { intros Hout%outcome_Done_inv. injection Hout as -> ->.
    split; [done|]. by left. }
  intros ([st1 reply] & Hpost & Hrest)%outcome_bind_inv.
  apply tamper_route_outcome in Hpost
    as [(i & resp & Hindex & -> & Hpost)
       |[(-> & Hindex & Hnil & ->)
       |[(-> & -> & Hindex)
       |(-> & floor & Hindex & _)]]].
  - destruct (parseInt platform (tamperIndex c)) as [i'|] eqn:Hparse; [|done].
    injection Hindex as ->.
    inversion Hpost as [| | | | |? ? ? Hi|? ? ? l Hi Hl]; subst;
      cbn [body] in Hrest.
    + apply outcome_Done_inv in Hrest. injection Hrest as -> ->.
      split; [done|]. do 2 right. left.
      split_and!; try done. left. by exists i.
    + apply App_refresh_outcome in Hrest
        as (data & Hget & -> & Hn & Hti & Htd & Hrefresh).
      2:{ simpl. intros Hnil%(f_equal length).
          rewrite length_insert in Hnil. simpl in Hnil. lia. }
      split; [by rewrite Hn|]. do 3 right. split; [done|].
      eexists i, l, _, data.
      split; [done|]. split; [done|]. split; [done|]. split; [done|].
      split; [done|]. split; [by rewrite Hti|]. split; [by rewrite Htd|].
      destruct Hrefresh as [(error & -> & -> & Hshown & Htoasts)
                           |(-> & Hshown & Htoasts)].
      * left. exists error. split_and!; try done.
        rewrite Htoasts. simpl. by rewrite <- (assoc_L (++)).
      * right. split_and!; try done.
  - destruct (parseInt platform (tamperIndex c)) as [i'|] eqn:Hparse; [done|].
    cbn [body] in Hrest.
    apply outcome_Done_inv in Hrest. injection Hrest as -> ->.
    split; [done|]. do 2 right. left. split_and!; try done. by right.
  - destruct (parseInt platform (tamperIndex c)) as [i'|] eqn:Hparse.
    { by destruct Hindex as [|[? _]]. }
    destruct Hindex as [|[_ Hne]]; [done|].
    apply outcome_Done_inv in Hrest. injection Hrest as -> ->.
    split; [done|]. right. left. done.
  - by destruct (parseInt platform (tamperIndex c)).
Qed.

End ClientProperties.

(** * The further properties on concrete inputs *)

(** X1 on [abc_server]: a tamper whose index is [null], which throws, and
    a tamper past the end of the chain, which is answered 400. *)
Lemma failing_response_leaves_state_witness :
  outcome (route abc_server (arrival_tamper index_null "x"))
    (abc_server, Uncaught "TypeError")
  ∧ outcome (route abc_server (arrival_tamper (index_number 3) "x"))
      (abc_server,
       Sent {| code := 400; body := Body_error "Invalid block index" |})
  ∧ (abc_server = abc_server
     ∧ ∃ index newData,
         arrival_tamper index_null "x" = arrival_tamper index newData
         ∧ (index = index_undefined
            ∨ index = index_null ∧ blockchain abc_server ≠ []
            ∨ ∃ floor,
                index = index_fraction floor
                ∧ (0 ≤ floor < Z.of_nat (length (blockchain abc_server)))%Z))
  ∧ (success (primitives:=ideal)
       {| code := 400; body := Body_error "Invalid block index" |} = false →
     abc_server = abc_server).
Proof.
  assert (outcome (route abc_server (arrival_tamper index_null "x"))
            (abc_server, Uncaught "TypeError")) as Hthrown
    by apply outcome_Done.
  assert (outcome (route abc_server (arrival_tamper (index_number 3) "x"))
            (abc_server,
             Sent {| code := 400; body := Body_error "Invalid block index" |}))
    as Hsent by apply outcome_Done.
  split; [exact Hthrown|]. split; [exact Hsent|]. split.
  - exact (failing_response_leaves_state _ _ _ _ Hthrown).
  - exact (proj1 (failing_response_leaves_state _ _ _ _ Hsent)).
Defined.

(** X2 on the state the session [scenario_exchanges] leaves: after the
    listing the four positions hold the objects 3, 4, 5 and 6 of seven. *)
Lemma blockchain_never_aliases_witness :
  reachable scenario_server
  ∧ blockchain scenario_server = [3; 4; 5; 6]
  ∧ length (heap scenario_server) = 7
  ∧ NoDup (blockchain scenario_server)
  ∧ Forall (λ l, l < length (heap scenario_server))
      (blockchain scenario_server)
  ∧ length (chain_of scenario_server) = length (blockchain scenario_server).
Proof.
  assert (reachable scenario_server) as Hreach
    by exact (session_reachable _ _ _ scenario_session).
  split; [exact Hreach|]. split; [reflexivity|]. split; [reflexivity|].
  exact (blockchain_never_aliases scenario_server Hreach).
Defined.

(** X3 on [abc_server], with an inspector that finds nothing wrong: the
    first call lists "c", "b", "a", the second "a", "b", "c". *)
Lemma information_order_flips_witness :
  ∃ st1 resp1 st2 resp2,
    on_information (information_handler abc_server) (Returned abc_all_valid)
    = Some (Done (st1, resp1))
    ∧ on_information (information_handler st1) (Returned cba_all_valid)
      = Some (Done (st2, resp2))
    ∧ info_data <$> information st1 = ["c"; "b"; "a"]
    ∧ info_data <$> information st2 = ["a"; "b"; "c"].
Proof.
  eexists _, _, _, _. split; [reflexivity|]. split; [reflexivity|].
  destruct (information_order_flips abc_server abc_all_valid _ _ eq_refl)
    as (_ & _ & Hflip).
  destruct (Hflip cba_all_valid _ _ eq_refl eq_refl eq_refl)
    as (Hfirst & Hsecond & _).
  split; [exact Hfirst | exact Hsecond].
Defined.

(** X4 on [abc_server]: after the refresh and one more block the stored
    data reads "c", "b", "a", "a". *)
Lemma create_after_information_witness :
  ∃ st1 resp1 st2 resp2,
    on_information (information_handler abc_server) (Returned abc_all_valid)
    = Some (Done (st1, resp1))
    ∧ on_create_block (create_handler st1 "a") (Returned a_block)
      = Some (Done (st2, resp2))
    ∧ chain_of st2 = reverse (block <$> abc_all_valid) ++ [a_block].
Proof.
  eexists _, _, _, _. split; [reflexivity|]. split; [reflexivity|].
  exact (proj1 (create_after_information abc_server abc_all_valid _ _ "a"
                  a_block _ _ eq_refl eq_refl)).
Defined.

(** X5 on [abc_server], writing "x" then "B" to block 1. *)
Lemma tamper_last_write_wins_witness :
  (0 ≤ 1 < Z.of_nat (length (blockchain abc_server)))%Z
  ∧ ∃ st1 st2,
      tamper_handler abc_server 1 "x"
      = Done (st1, {| code := 200; body := Body_success |})
      ∧ tamper_handler st1 1 "B"
        = Done (st2, {| code := 200; body := Body_success |})
      ∧ tamper_handler abc_server 1 "B"
        = Done (st2, {| code := 200; body := Body_success |}).
Proof.
  assert (0 ≤ 1 < Z.of_nat (length (blockchain abc_server)))%Z as Hi
    by (simpl; lia).
  split; [exact Hi|].
  exact (tamper_last_write_wins abc_server 1 "x" "B" Hi).
Defined.

(** X6 on [abc_server], writing "A" to block 0 and "C" to block 2. *)
Lemma tamper_commutes_witness :
  well_formed abc_server
  ∧ ∃ st_i st_j st',
      tamper_handler abc_server 0 "A"
      = Done (st_i, {| code := 200; body := Body_success |})
      ∧ tamper_handler st_i 2 "C"
        = Done (st', {| code := 200; body := Body_success |})
      ∧ tamper_handler abc_server 2 "C"
        = Done (st_j, {| code := 200; body := Body_success |})
      ∧ tamper_handler st_j 0 "A"
        = Done (st', {| code := 200; body := Body_success |}).
Proof.
  split; [exact abc_server_well_formed|].
  apply (tamper_commutes abc_server 0 2 "A" "C" abc_server_well_formed);
    simpl; lia.
Defined.

(** X7 at the number 7 and at two equal statuses. *)
Lemma getStatusColor_decodes_witness :
  Status_of_ordinal 7 = None
  ∧ getStatusColor 7 = "bg-gray-100 border-gray-500"
  ∧ Tampered = Tampered.
Proof.
  assert (Status_of_ordinal 7 = None) as Hnone by reflexivity.
  split; [exact Hnone|]. split.
  - exact (proj2 (proj1 getStatusColor_decodes 7%Z) Hnone).
  - exact (proj2 getStatusColor_decodes Tampered Tampered eq_refl).
Defined.

(** X8 on the page loading against the server that has just started. *)
Lemma App_fetchInformation_outcome_witness :
  ∃ c',
    outcome (App_fetchInformation App_initial (initial (primitives:=ideal)))
      (c', initial)
    ∧ toasts c'
      = [{| description :=
              "Failed to fetch blockchain information: No blocks found";
            destructive := true |}]
    ∧ newBlockData c' = "".
Proof.
  eexists. split; [apply outcome_Done|]. split; [reflexivity|].
  exact (proj1 (App_fetchInformation_outcome App_initial initial _ _
                  (outcome_Done _))).
Defined.

(** X9 on the page after [scenario_actions]: the second refresh has put
    the newer block first, so the edit at index 1 hit the older one, the
    inspector rejects the chain, and the page still shows what the server
    still has in [information]. *)
Lemma App_shows_information_witness :
  App_reachable decimal_platform scenario_page.1 scenario_page.2
  ∧ information scenario_page.2
    = [{| info_data := "b"; info_status := Valid |};
       {| info_data := "a"; info_status := Valid |}]
  ∧ data <$> chain_of scenario_page.2 = ["b"; "B"]
  ∧ App_blockchain scenario_page.1 = Some (information scenario_page.2).
Proof.
  assert (App_reachable decimal_platform scenario_page.1 scenario_page.2)
    as Hreach.
  { apply (App_play_reachable decimal_platform chaining_verifier
             scenario_actions (None, 10%Z) App_initial initial).
    constructor. }
  split; [exact Hreach|]. split; [reflexivity|]. split; [reflexivity|].
  exact (App_shows_information decimal_platform _ _ Hreach).
Defined.

(** X10 on the page that has just loaded, with "a" typed: the block is
    created and the list refreshed. *)
Lemma App_create_outcome_witness :
  outcome
    (App_create decimal_platform (setNewBlockData "a" App_initial) initial)
    (created_page.1, created_page.2)
  ∧ App_blockchain created_page.1
    = Some [{| info_data := "a"; info_status := Valid |}]
  ∧ information created_page.2
    = [{| info_data := "a"; info_status := Valid |}]
  ∧ newBlockData created_page.1 = ""
  ∧ tamperIndex created_page.1 = ""
  ∧ tamperData created_page.1 = "".
Proof.
  assert (outcome
            (App_create decimal_platform (setNewBlockData "a" App_initial)
               initial)
            (created_page.1, created_page.2)) as Hout.
  { exact (run_outcome chaining_verifier
             (App_create decimal_platform (setNewBlockData "a" App_initial)
                initial) (None, 10%Z)). }
  split; [exact Hout|]. split; [reflexivity|]. split; [reflexivity|].
  split; [reflexivity|].
  destruct (App_create_outcome decimal_platform _ _ _ _ Hout)
    as (Hindex & Hdata & _).
  split; [exact Hindex | exact Hdata].
Defined.

(** X11 on [abc_server]: with "1" and "B" typed the block is edited and
    the refreshed list shows it as tampered; with the index field left
    empty the handler throws and the page stays as it is. *)
Lemma App_tamper_outcome_witness :
  outcome (App_tamper decimal_platform abc_client abc_server)
    (tampered_page.1, tampered_page.2)
  ∧ App_blockchain tampered_page.1
    = Some [{| info_data := "c"; info_status := Recovered |};
            {| info_data := "B"; info_status := Tampered |};
            {| info_data := "a"; info_status := Valid |}]
  ∧ newBlockData tampered_page.1 = newBlockData abc_client
  ∧ parseInt decimal_platform (tamperIndex abc_client_no_index) = None
  ∧ outcome (App_tamper decimal_platform abc_client_no_index abc_server)
      (abc_client_no_index, abc_server)
  ∧ newBlockData abc_client_no_index = newBlockData abc_client_no_index.
Proof.
  assert (outcome (App_tamper decimal_platform abc_client abc_server)
            (tampered_page.1, tampered_page.2)) as Hout.
  { exact (run_outcome chaining_verifier
             (App_tamper decimal_platform abc_client abc_server)
             (None, 10%Z)). }
  assert (outcome
            (App_tamper decimal_platform abc_client_no_index abc_server)
            (abc_client_no_index, abc_server)) as Hthrown
    by apply outcome_Done.
  split; [exact Hout|]. split; [reflexivity|].
  split; [exact (proj1 (App_tamper_outcome decimal_platform _ _ _ _ Hout))|].
  split; [reflexivity|]. split; [exact Hthrown|].
  exact (proj1 (App_tamper_outcome decimal_platform _ _ _ _ Hthrown)).
Defined.
